(** * NasVolumeWatcher: the catalog operations of [database.py] and their
    drivers in [volumefind.py] and [volumewatch.py]

    The catalog is the pair of PostgreSQL tables [files] and [dirs], both
    with primary key (volume, path).  A table with a primary key is a finite
    map from keys to the remaining columns, so the tables are [gmap]s.  Each
    SQL statement the program issues is written as the function on these maps
    that the statement denotes; a transaction that raises is rolled back and
    leaves the catalog as it was.

    Scope of the store model: failures that depend on the data and on the
    statements alone are modelled (a row proposed twice to
    [ON CONFLICT DO UPDATE], a primary-key clash in [UPDATE], an entity
    without a stat whose [size] raises).  Failures of the engine itself (lost
    connection, values a column type rejects) are not. *)

From Stdlib Require Import ZArith Ascii.
From stdpp Require Import base strings gmap sorting list fin_maps.

Local Open Scope Z_scope.

(** ** Entities ([FileBase], [File], [Dir]) *)

(** The four fields [FileBase.stat]'s setter keeps of an [os.stat_result];
    the times are whole seconds ([replace(microsecond=0)]). *)
Record stat_result := {
  st_size : Z;
  st_ctime : Z;
  st_mtime : Z;
  st_atime : Z
}.

Record FileBase := {
  volume : string;
  path : string;
  parent : option string;
  stat : option stat_result
}.

Inductive entity :=
| File (b : FileBase) (sha256 : option string) (rehash : option bool)
| Dir (b : FileBase) (count : option Z).

Definition base (e : entity) : FileBase :=
  match e with File b _ _ => b | Dir b _ => b end.

(** ** The catalog *)

Abbreviation key := (string * string)%type.

(** [__eq__] and [__hash__] of [FileBase]: the pair (volume, path). *)
Definition key_of (b : FileBase) : key := (volume b, path b).

(** The columns parent, size, ctime, mtime, atime shared by [files], [dirs]
    and the staging table [files_exist].  Every statement of the program that
    writes them passes [file.size] = [int(self.__size)] and the three
    [str(datetime)], so no row written by the program holds NULL there. *)
Record meta := {
  m_parent : option string;
  m_size : Z;
  m_ctime : Z;
  m_mtime : Z;
  m_atime : Z
}.

Record file_row := {
  f_meta : meta;
  f_sha256 : option string;
  f_rehash : option bool
}.

Record dir_row := {
  d_meta : meta;
  d_count : option Z
}.

Record catalog := {
  files : gmap key file_row;
  dirs : gmap key dir_row
}.

Inductive table := files_table | dirs_table.

(** [DatabasePostgreSQL._table] *)
Definition _table (e : entity) : table :=
  match e with File _ _ _ => files_table | Dir _ _ => dirs_table end.

(** What a call leaves behind: a committed catalog, or a rollback. *)
Inductive outcome :=
| Committed (c : catalog)
| RolledBack.

(** The catalog after a call that started in [c]. *)
Definition after (o : outcome) (c : catalog) : catalog :=
  match o with Committed c' => c' | RolledBack => c end.

Definition set_rehash (v : option bool) (r : file_row) : file_row :=
  {| f_meta := f_meta r; f_sha256 := f_sha256 r; f_rehash := v |}.

Definition set_f_meta (m : meta) (r : file_row) : file_row :=
  {| f_meta := m; f_sha256 := f_sha256 r; f_rehash := f_rehash r |}.

Definition set_d_meta (m : meta) (r : dir_row) : dir_row :=
  {| d_meta := m; d_count := d_count r |}.

Definition set_parent (p : option string) (m : meta) : meta :=
  {| m_parent := p; m_size := m_size m; m_ctime := m_ctime m;
     m_mtime := m_mtime m; m_atime := m_atime m |}.

(** The tuple (volume, path, parent, size, ctime, mtime, atime) every write
    builds from an entity.  [file.size] raises on an entity without stat. *)
Definition row_values (b : FileBase) : option (key * meta) :=
  match stat b with
  | None => None
  | Some st =>
      Some (key_of b,
            {| m_parent := parent b; m_size := st_size st;
               m_ctime := st_ctime st; m_mtime := st_mtime st;
               m_atime := st_atime st |})
  end.

(** A row inserted with the seven columns only: the others default to NULL. *)
Definition new_file_row (m : meta) : file_row :=
  {| f_meta := m; f_sha256 := None; f_rehash := None |}.

Definition new_dir_row (m : meta) : dir_row :=
  {| d_meta := m; d_count := None |}.

(** ** [upsert_files_replace]: the bulk reconcile of a scan *)

(** [copy files_exist from stdin]: one staged row per entity, in order. *)
Fixpoint copy_files_exist (fs : list entity) : option (list (key * meta)) :=
  match fs with
  | [] => Some []
  | f :: fs' =>
      match row_values (base f), copy_files_exist fs' with
      | Some kv, Some l => Some (kv :: l)
      | _, _ => None
      end
  end.

(** The clause after [on conflict (volume,path) do]. *)
Inductive conflict_clause (R : Type) :=
| DoNothing
| DoUpdate (upd : R → meta → option R).
Arguments DoNothing {R}.
Arguments DoUpdate {R} upd.

(** [update set rehash=TRUE where files.size!=excluded.size or
    files.mtime!=excluded.mtime]: [None] when the WHERE is not true. *)
Definition rehash_where (r : file_row) (ex : meta) : option file_row :=
  if bool_decide (m_size (f_meta r) ≠ m_size ex)
     || bool_decide (m_mtime (f_meta r) ≠ m_mtime ex)
  then Some (set_rehash (Some true) r)
  else None.

Section Upsert.
Context {R : Type}.
Variable fresh : meta → R.
Variable clause : conflict_clause R.

(** One proposed row of [insert into T ... select ... from files_exist on
    conflict (volume,path) do ...].  [touched] is the set of keys this
    command has inserted or updated so far: PostgreSQL refuses a second
    [DO UPDATE] proposal for such a row ("command cannot affect row a
    second time") before it looks at the WHERE; [DO NOTHING] skips it. *)
Definition insert_on_conflict (st : gmap key R * gset key) (kv : key * meta)
  : option (gmap key R * gset key) :=
  let '(t, touched) := st in
  let '(k, ex) := kv in
  match t !! k with
  | None => Some (<[k := fresh ex]> t, {[k]} ∪ touched)
  | Some r =>
      match clause with
      | DoNothing => Some (t, touched)
      | DoUpdate upd =>
          if decide (k ∈ touched) then None
          else match upd r ex with
               | Some r' => Some (<[k := r']> t, {[k]} ∪ touched)
               | None => Some (t, touched)
               end
      end
  end.

(** The whole INSERT ... SELECT, rows taken in the order they were copied. *)
Fixpoint insert_select (rows : list (key * meta)) (st : gmap key R * gset key)
  : option (gmap key R * gset key) :=
  match rows with
  | [] => Some st
  | kv :: rows' =>
      match insert_on_conflict st kv with
      | Some st' => insert_select rows' st'
      | None => None
      end
  end.

(** [delete from T as t using T as f left join files_exist as e on
    f.volume=e.volume and f.path=e.path where t.volume=f.volume and
    t.path=f.path and e.path is null]: a row stays iff its key is staged. *)
Definition delete_unstaged (rows : list (key * meta)) (t : gmap key R)
  : gmap key R :=
  filter (λ kr, kr.1 ∈ rows.*1) t.

Definition replace_table (rows : list (key * meta)) (t : gmap key R)
  : option (gmap key R) :=
  match insert_select rows (t, ∅) with
  | Some (t', _) => Some (delete_unstaged rows t')
  | None => None
  end.

(** What one proposal leaves at its key when the key was not yet touched. *)
Definition proposed (o : option R) (ex : meta) : R :=
  match o with
  | None => fresh ex
  | Some r =>
      match clause with
      | DoNothing => r
      | DoUpdate upd => default r (upd r ex)
      end
  end.

(** The clause has nothing left to do on [r] for the proposal [ex]. *)
Definition settled (r : R) (ex : meta) : Prop :=
  match clause with
  | DoNothing => True
  | DoUpdate upd => upd r ex = None ∨ upd r ex = Some r
  end.
End Upsert.

(** [update] as the function picks it: the rehash update for table [files],
    ['nothing'] otherwise. *)
Definition files_clause : conflict_clause file_row := DoUpdate rehash_where.
Definition dirs_clause : conflict_clause dir_row := DoNothing.

(** [upsert_files_replace]: nothing at all on an empty listing; otherwise the
    table is the one of [files[0]], the whole listing is staged, upserted
    and pruned in one transaction, and any exception rolls it back. *)
Definition upsert_files_replace (fs : list entity) (c : catalog) : outcome :=
  match fs with
  | [] => Committed c
  | f0 :: _ =>
      match copy_files_exist fs with
      | None => RolledBack
      | Some rows =>
          match _table f0 with
          | files_table =>
              match replace_table new_file_row files_clause rows (files c) with
              | Some t => Committed {| files := t; dirs := dirs c |}
              | None => RolledBack
              end
          | dirs_table =>
              match replace_table new_dir_row dirs_clause rows (dirs c) with
              | Some t => Committed {| files := files c; dirs := t |}
              | None => RolledBack
              end
          end
      end
  end.

(** ** [upsert_files]: per-entity insert-or-update *)

(** One [cursor.execute] of the loop.  The INSERT names the seven shared
    columns only; [sha256=%s, rehash=%s] are appended to the [do update set]
    list for a [File], nothing for a [Dir]. *)
Definition upsert_file (c : catalog) (e : entity) : option catalog :=
  match e with
  | File b sha rh =>
      match row_values b with
      | None => None
      | Some (k, m) =>
          let r' := match files c !! k with
                    | None => new_file_row m
                    | Some _ => {| f_meta := m; f_sha256 := sha; f_rehash := rh |}
                    end in
          Some {| files := <[k := r']> (files c); dirs := dirs c |}
      end
  | Dir b _ =>
      match row_values b with
      | None => None
      | Some (k, m) =>
          let r' := match dirs c !! k with
                    | None => new_dir_row m
                    | Some r => set_d_meta m r
                    end in
          Some {| files := files c; dirs := <[k := r']> (dirs c) |}
      end
  end.

Fixpoint upsert_each (fs : list entity) (c : catalog) : option catalog :=
  match fs with
  | [] => Some c
  | f :: fs' =>
      match upsert_file c f with
      | Some c' => upsert_each fs' c'
      | None => None
      end
  end.

Definition upsert_files (fs : list entity) (c : catalog) : outcome :=
  match upsert_each fs c with
  | Some c' => Committed c'
  | None => RolledBack
  end.

(** ** [select_files] *)

(** [FileRowFactory] on a row of [files]: a [File] carrying every column. *)
Definition FileRowFactory (kr : key * file_row) : entity :=
  let m := f_meta kr.2 in
  File {| volume := kr.1.1; path := kr.1.2; parent := m_parent m;
          stat := Some {| st_size := m_size m; st_ctime := m_ctime m;
                          st_mtime := m_mtime m; st_atime := m_atime m |} |}
       (f_sha256 kr.2) (f_rehash kr.2).

(** [(sha256 is null or rehash = TRUE)] *)
Definition is_modified (r : file_row) : bool :=
  bool_decide (f_sha256 r = None) || bool_decide (f_rehash r = Some true).

(** [order by size asc] *)
Definition size_le (x y : key * file_row) : Prop :=
  m_size (f_meta x.2) ≤ m_size (f_meta y.2).

Global Instance size_le_dec x y : Decision (size_le x y).
Proof. unfold size_le. apply _. Defined.

(** [select * from files where (sha256 is null or rehash = TRUE) order by
    size asc [limit n]], the statement [select_files] builds for table
    [files] without [params]; the LIMIT is added only when [limit>0].  The
    engine is free in the order of rows of equal size; the sort below is one
    such order. *)
Definition select_rows (limit : Z) (t : gmap key file_row)
  : list (key * file_row) :=
  let rows := merge_sort size_le
                (filter (λ kr, is_modified kr.2 = true) (map_to_list t)) in
  if bool_decide (0 < limit) then take (Z.to_nat limit) rows else rows.

(** Without [params] and without [modified] the WHERE is empty, the
    statement does not parse, and the handler returns the empty result. *)
Definition select_files (modified : bool) (limit : Z) (c : catalog)
  : list entity :=
  if modified then FileRowFactory <$> select_rows limit (files c) else [].

(** ** [delete_files], [set_rehash_files], [rename_files] *)

Definition delete_file (c : catalog) (e : entity) : catalog :=
  match _table e with
  | files_table => {| files := delete (key_of (base e)) (files c); dirs := dirs c |}
  | dirs_table => {| files := files c; dirs := delete (key_of (base e)) (dirs c) |}
  end.

Definition delete_files (fs : list entity) (c : catalog) : outcome :=
  Committed (foldl delete_file c fs).

Definition set_rehash_file (c : catalog) (e : entity) : catalog :=
  match e with
  | File b _ _ =>
      {| files := alter (set_rehash (Some true)) (key_of b) (files c);
         dirs := dirs c |}
  | Dir _ _ => c
  end.

Definition set_rehash_files (fs : list entity) (c : catalog) : outcome :=
  Committed (foldl set_rehash_file c fs).

(** [update T set volume=%s, path=%s, parent=%s where volume=%s and path=%s]
    on a table with primary key (volume, path): the row moves to the new key
    unless another row holds it, which violates the key and raises. *)
Definition update_key {R : Type} (reparent : option string → R → R)
    (src dst : key) (p : option string) (t : gmap key R)
  : option (gmap key R) :=
  match t !! src with
  | None => Some t
  | Some r =>
      if decide (dst = src) then Some (<[src := reparent p r]> t)
      else match t !! dst with
           | Some _ => None
           | None => Some (<[dst := reparent p r]> (delete src t))
           end
  end.

Definition rename_file (c : catalog) (sd : entity * entity) : option catalog :=
  let '(src, dst) := sd in
  let ks := key_of (base src) in
  let kd := key_of (base dst) in
  let p := parent (base dst) in
  match _table src with
  | files_table =>
      match update_key (λ p r, set_f_meta (set_parent p (f_meta r)) r)
                       ks kd p (files c) with
      | Some t => Some {| files := t; dirs := dirs c |}
      | None => None
      end
  | dirs_table =>
      match update_key (λ p r, set_d_meta (set_parent p (d_meta r)) r)
                       ks kd p (dirs c) with
      | Some t => Some {| files := files c; dirs := t |}
      | None => None
      end
  end.

Fixpoint rename_each (fs : list (entity * entity)) (c : catalog)
  : option catalog :=
  match fs with
  | [] => Some c
  | sd :: fs' =>
      match rename_file c sd with
      | Some c' => rename_each fs' c'
      | None => None
      end
  end.

(** [files] is the dict's items in order. *)
Definition rename_files (fs : list (entity * entity)) (c : catalog) : outcome :=
  match rename_each fs c with
  | Some c' => Committed c'
  | None => RolledBack
  end.

(** ** [update_counter] *)

(** [count(sha256)] of the group of [h] in
    [select sha256 from files group by sha256]. *)
Definition hash_uses (t : gmap key file_row) (h : string) : nat :=
  size (filter (λ kr, f_sha256 kr.2 = Some h) t).

(** Membership in [hashlist]: [having count(sha256)>1].  The NULL group has
    [count(sha256)] = 0 and is never a member. *)
Definition hashlist (t : gmap key file_row) (h : string) : bool :=
  bool_decide (1 < hash_uses t h)%nat.

(** A row [f] of [files] that reaches [count(m)] for the directory [d]:
    [d.volume=f.volume and d.path=f.parent and f.size>0] and
    [f.sha256=m.sha256] for a member [m] of [hashlist]. *)
Definition counted (t : gmap key file_row) (d : key) (kr : key * file_row)
  : bool :=
  bool_decide (kr.1.1 = d.1)
  && bool_decide (m_parent (f_meta kr.2) = Some d.2)
  && bool_decide (0 < m_size (f_meta kr.2))
  && match f_sha256 kr.2 with
     | Some h => hashlist t h
     | None => false
     end.

(** The [count] column of [counts] for directory [d]. *)
Definition counts (t : gmap key file_row) (d : key) : Z :=
  Z.of_nat (size (filter (λ kr, counted t d kr = true) t)).

(** [update dirs set count=c.count from counts c where ... and
    (dirs.count<>c.count or dirs.count is null)] *)
Definition store_count (n : Z) (r : dir_row) : dir_row :=
  if bool_decide (d_count r = Some n) then r
  else {| d_meta := d_meta r; d_count := Some n |}.

Definition update_counter (c : catalog) : outcome :=
  Committed {| files := files c;
               dirs := map_imap (λ k r, Some (store_count (counts (files c) k) r))
                                (dirs c) |}.

(** ** The property setters and getters of [DatabasePostgreSQL] *)

Definition set_files := upsert_files_replace.
Definition set_dirs := upsert_files_replace.
Definition set_created := upsert_files.
Definition set_updated (fs : list entity) (c : catalog) : outcome :=
  match fs with
  | [] => update_counter c
  | _ :: _ => upsert_files fs c
  end.
Definition set_deleted := delete_files.
Definition get_modified (c : catalog) : list entity := select_files true 100 c.
Definition set_modified := set_rehash_files.
Definition set_moved := rename_files.

(** ** The filesystem the drivers look at *)

(** What the drivers ask about a path: [os.path.islink], [os.stat], and the
    digest [sha256sum] returns, [None] when opening or reading raises. *)
Record fs_node := {
  nd_islink : bool;
  nd_stat : stat_result;
  nd_digest : option string
}.

(** [None]: [os.path.exists] is false. *)
Definition filesystem := string → option fs_node.

Definition sha256sum (fs : filesystem) (p : string) : option string :=
  match fs p with
  | Some nd => nd_digest nd
  | None => None
  end.

Definition startswith_sep (s : string) : bool :=
  match s with
  | String "/"%char _ => true
  | _ => false
  end.

Fixpoint endswith_sep (s : string) : bool :=
  match s with
  | EmptyString => false
  | String c EmptyString => Ascii.eqb c "/"%char
  | String _ s' => endswith_sep s'
  end.

(** [os.path.join] of two components (posixpath). *)
Definition path_join (a b : string) : string :=
  if startswith_sep b then b
  else if bool_decide (a = EmptyString) || endswith_sep a then a +:+ b
  else a +:+ "/" +:+ b.

Fixpoint drop_while {A} (p : A → bool) (l : list A) : list A :=
  match l with
  | [] => []
  | x :: l' => if p x then drop_while p l' else l
  end.

Definition is_sep (c : Ascii.ascii) : bool := Ascii.eqb c "/"%char.

(** [os.path.dirname] (posixpath): the head up to the last slash, with its
    trailing slashes stripped unless it is made of slashes only. *)
Definition dirname (p : string) : string :=
  let head := rev (drop_while (λ c, negb (is_sep c))
                              (rev (String.list_ascii_of_string p))) in
  String.string_of_list_ascii
    (if bool_decide (head ≠ []) && negb (forallb is_sep head)
     then rev (drop_while is_sep (rev head))
     else head).

(** [re.search('@eaDir', str(path))] *)
Definition is_eaDir (p : string) : bool :=
  match String.index 0 "@eaDir" p with
  | Some _ => true
  | None => false
  end.

(** ** [FileFinder.calc_hash] *)

Record hash_state := {
  db : catalog;
  pending : list entity;  (* [files] *)
  hashed : Z;
  saved : Z;
  skip : Z
}.

(** [self.database.updated = tuple(files); saved += len(files); files = []] *)
Definition flush (st : hash_state) : hash_state :=
  {| db := after (set_updated (pending st) (db st)) (db st);
     pending := [];
     hashed := hashed st;
     saved := saved st + Z.of_nat (length (pending st));
     skip := skip st |}.

(** [file.stat = os.stat(fullpath); file.sha256 = sha256sum(fullpath);
    file.rehash = None] *)
Definition rehashed (st : stat_result) (digest : option string)
    (file : entity) : entity :=
  let b := base file in
  let b' := {| volume := volume b; path := path b; parent := parent b;
               stat := Some st |} in
  match file with
  | File _ _ _ => File b' digest None
  | Dir _ cnt => Dir b' cnt
  end.

(** The body of [for file in modified].  [expired n] says whether more than
    six seconds have passed since the last flush once the [n]-th file of the
    run has been handled. *)
Definition hash_file (fs : filesystem) (expired : Z → bool)
    (st : hash_state) (file : entity) : hash_state :=
  let fullpath := path_join (volume (base file)) (path (base file)) in
  let st1 :=
    match fs fullpath with
    | Some nd =>
        {| db := db st;
           pending := pending st
                      ++ [rehashed (nd_stat nd) (sha256sum fs fullpath) file];
           hashed := hashed st + 1;
           saved := saved st;
           skip := skip st |}
    | None =>
        {| db := after (set_deleted [file] (db st)) (db st);
           pending := pending st;
           hashed := hashed st;
           saved := saved st;
           skip := skip st + 1 |}
    end in
  if expired (hashed st1 + skip st1) then flush st1 else st1.

(** One turn of [while True] on a non-empty [modified]. *)
Definition hash_batch (fs : filesystem) (expired : Z → bool)
    (modified : list entity) (st : hash_state) : hash_state :=
  flush (foldl (hash_file fs expired) st modified).

(** The [while True] loop; [None] when [fuel] turns were not enough to reach
    the [break]. *)
Fixpoint calc_hash_loop (fuel : nat) (fs : filesystem) (expired : Z → bool)
    (st : hash_state) : option hash_state :=
  match fuel with
  | O => None
  | S fuel' =>
      match get_modified (db st) with
      | [] => Some st
      | modified =>
          calc_hash_loop fuel' fs expired (hash_batch fs expired modified st)
      end
  end.

(** [calc_hash]: the loop, then [self.database.updated = ()]; returns
    [saved] and leaves the catalog. *)
Definition calc_hash (fuel : nat) (fs : filesystem) (expired : Z → bool)
    (c : catalog) : option (Z * catalog) :=
  match calc_hash_loop fuel fs expired
          {| db := c; pending := []; hashed := 0; saved := 0; skip := 0 |} with
  | Some st => Some (saved st, after (set_updated [] (db st)) (db st))
  | None => None
  end.

(** ** [WatchEventHandler] *)

Inductive event :=
| DirCreatedEvent (src : string)
| FileCreatedEvent (src : string)
| DirDeletedEvent (src : string)
| FileDeletedEvent (src : string)
| DirModifiedEvent (src : string)
| FileModifiedEvent (src : string)
| DirMovedEvent (src dest : string)
| FileMovedEvent (src dest : string).

Definition src_path (ev : event) : string :=
  match ev with
  | DirCreatedEvent s | FileCreatedEvent s | DirDeletedEvent s
  | FileDeletedEvent s | DirModifiedEvent s | FileModifiedEvent s
  | DirMovedEvent s _ | FileMovedEvent s _ => s
  end.

Definition key_only (v p : string) : FileBase :=
  {| volume := v; path := p; parent := None; stat := None |}.

Definition on_created (fs : filesystem) (vol : string) (ev : event)
    (c : catalog) : catalog :=
  if is_eaDir (src_path ev) then c
  else
    match fs (path_join vol (src_path ev)) with
    | None => c
    | Some nd =>
        if nd_islink nd then c
        else
          let b := {| volume := vol; path := src_path ev;
                      parent := Some (dirname (src_path ev));
                      stat := Some (nd_stat nd) |} in
          match ev with
          | DirCreatedEvent _ => after (set_created [Dir b None] c) c
          | FileCreatedEvent _ => after (set_created [File b None None] c) c
          | _ => c
          end
    end.

Definition on_deleted (vol : string) (ev : event) (c : catalog) : catalog :=
  if is_eaDir (src_path ev) then c
  else
    match ev with
    | DirDeletedEvent s => after (set_deleted [Dir (key_only vol s) None] c) c
    | FileDeletedEvent s =>
        after (set_deleted [File (key_only vol s) None None] c) c
    | _ => c
    end.

Definition on_modified (vol : string) (ev : event) (c : catalog) : catalog :=
  if is_eaDir (src_path ev) then c
  else
    match ev with
    | DirModifiedEvent s => after (set_modified [Dir (key_only vol s) None] c) c
    | FileModifiedEvent s =>
        after (set_modified [File (key_only vol s) None None] c) c
    | _ => c
    end.

Definition on_moved (vol : string) (ev : event) (c : catalog) : catalog :=
  if is_eaDir (src_path ev) then c
  else
    match ev with
    | DirMovedEvent s d =>
        let dst := {| volume := vol; path := d; parent := Some (dirname d);
                      stat := None |} in
        after (set_moved [(Dir (key_only vol s) None, Dir dst None)] c) c
    | FileMovedEvent s d =>
        let dst := {| volume := vol; path := d; parent := Some (dirname d);
                      stat := None |} in
        after (set_moved [(File (key_only vol s) None None, File dst None None)] c) c
    | _ => c
    end.

(** [FileSystemEventHandler.dispatch], which the observer calls: the method
    of the event's type. *)
Definition dispatch (fs : filesystem) (vol : string) (ev : event)
    (c : catalog) : catalog :=
  match ev with
  | DirCreatedEvent _ | FileCreatedEvent _ => on_created fs vol ev c
  | DirDeletedEvent _ | FileDeletedEvent _ => on_deleted vol ev c
  | DirModifiedEvent _ | FileModifiedEvent _ => on_modified vol ev c
  | DirMovedEvent _ _ | FileMovedEvent _ _ => on_moved vol ev c
  end.

(** ** [FileFinder.find] *)

(** [topdir[:len(wanted)] == wanted] *)
Definition starts_with (wanted topdir : string) : bool :=
  String.eqb (String.substring 0 (String.length wanted) topdir) wanted.

(** [for wanted in denylist: if ...: break] with its [else:] branch: the
    top-level name is skipped as soon as one entry of the denylist matches. *)
Definition denied (denylist : list string) (topdir : string) : bool :=
  existsb (λ wanted, starts_with wanted topdir) denylist.

(** What [find] reads of one result of [pathlib.Path(topdir).glob("**/*")]:
    [str(file)], [str(file.parent)], [is_symlink()], [is_file()], [is_dir()]
    and [stat()]. *)
Record glob_entry := {
  g_path : string;
  g_parent : string;
  g_is_symlink : bool;
  g_is_file : bool;
  g_is_dir : bool;
  g_stat : stat_result
}.

(** The tree as a scan sees it, for the time of the scan: [os.listdir()]
    after [os.chdir(volume)], [os.stat(topdir)], and the glob of a top-level
    name. *)
Record scan_env := {
  listdir : string → list string;
  top_stat : string → string → stat_result;
  glob : string → string → list glob_entry
}.

(** The body of [for file in pathlib.Path(topdir).glob("**/*")], on the pair
    ([childfiles], [childdirs]). *)
Definition scan_entry (vol : string) (acc : list entity * list entity)
    (g : glob_entry) : list entity * list entity :=
  if is_eaDir (g_path g) then acc
  else if g_is_symlink g || negb (g_is_file g || g_is_dir g) then acc
  else
    let b := {| volume := vol; path := g_path g; parent := Some (g_parent g);
                stat := Some (g_stat g) |} in
    if g_is_file g then (acc.1 ++ [File b None None], acc.2)
    else if g_is_dir g then (acc.1, acc.2 ++ [Dir b None])
    else acc.

(** The body of [for topdir in os.listdir()], on the pair ([files], [dirs]). *)
Definition scan_topdir (env : scan_env) (denylist : list string)
    (vol : string) (acc : list entity * list entity) (topdir : string)
  : list entity * list entity :=
  if denied denylist topdir then acc
  else
    let top := Dir {| volume := vol; path := topdir; parent := None;
                      stat := Some (top_stat env vol topdir) |} None in
    let children := foldl (scan_entry vol) ([], []) (glob env vol topdir) in
    (acc.1 ++ children.1, (acc.2 ++ [top]) ++ children.2).

(** The two listings [find] builds and returns. *)
Definition scan (env : scan_env) (denylist volumes : list string)
  : list entity * list entity :=
  foldl (λ acc vol, foldl (scan_topdir env denylist vol) acc (listdir env vol))
        ([], []) volumes.

(** [find]: the scan, then [self.database.files = tuple(files)] and
    [self.database.dirs = tuple(dirs)]. *)
Definition find (env : scan_env) (volumes denylist : list string)
    (c : catalog) : (list entity * list entity) * catalog :=
  let listing := scan env denylist volumes in
  let c1 := after (set_files listing.1 c) c in
  let c2 := after (set_dirs listing.2 c1) c1 in
  (listing, c2).

(** ** The command lines and the environment *)

(** [getopt] of [volumefind.py] on [sys.argv[1:]]: the pair
    ([verbose], [findfiles]), or [None] when an argument is not known and
    the program prints its usage and exits. *)
Fixpoint getopt_from (verbose findfiles : bool) (args : list string)
  : option (bool * bool) :=
  match args with
  | [] => Some (verbose, findfiles)
  | a :: args' =>
      if String.eqb a "-v" then getopt_from true findfiles args'
      else if String.eqb a "-nf" then getopt_from verbose false args'
      else None
  end.

Definition getopt (args : list string) : option (bool * bool) :=
  getopt_from false true args.

(** [getopt] of [volumewatch.py]. *)
Fixpoint watch_getopt_from (verbose : bool) (args : list string)
  : option bool :=
  match args with
  | [] => Some verbose
  | a :: args' =>
      if String.eqb a "-v" then watch_getopt_from true args' else None
  end.

Definition watch_getopt (args : list string) : option bool :=
  watch_getopt_from false args.

(** [str.split(',')] *)
Fixpoint split_commas (s : string) : list string :=
  match s with
  | EmptyString => [EmptyString]
  | String c s' =>
      if Ascii.eqb c ","%char then EmptyString :: split_commas s'
      else match split_commas s' with
           | [] => [String c EmptyString]
           | field :: fields => String c field :: fields
           end
  end.

(** [list(filter(lambda x: x!='', (os.environ.get(NAME) or default)
    .split(',')))] *)
Definition env_list (value : option string) (default : string) : list string :=
  let text := match value with
              | None | Some EmptyString => default
              | Some v => v
              end in
  filter (λ x, x ≠ EmptyString) (split_commas text).

(** The top-level directories [main] of [volumewatch.py] schedules on the
    observer, as (volume, directory) pairs in order. *)
Definition watched (env : scan_env) (volumes denylist : list string)
  : list (string * string) :=
  vol ← volumes;
  (λ d, (vol, d)) <$> filter (λ d, denied denylist d = false) (listdir env vol).

(** * Notions used in the statements *)

(** The keys of a scanned listing. *)
Definition scanned_keys (fs : list entity) : list key :=
  (λ e, key_of (base e)) <$> fs.

(** The volumes represented in a scanned listing. *)
Definition scanned_volumes (fs : list entity) : list string :=
  (λ e, volume (base e)) <$> fs.

Definition flagged (r r' : file_row) : Prop :=
  r' = r ∨ r' = set_rehash (Some true) r.

(** The hash of file [kf] is carried by another file of the catalog. *)
Definition shares_hash (t : gmap key file_row) (kf : key) (f : file_row)
  : Prop :=
  ∃ h k2 f2, f_sha256 f = Some h ∧ k2 ≠ kf ∧ t !! k2 = Some f2
             ∧ f_sha256 f2 = Some h.

(** [f] at [kf] is a direct child of directory [d] with some content. *)
Definition child_with_content (d kf : key) (f : file_row) : Prop :=
  kf.1 = d.1 ∧ m_parent (f_meta f) = Some d.2 ∧ 0 < m_size (f_meta f).

(** C3 as the claim words it: the duplicated hashes are those on two or more
    files of size above zero; a directory counts its direct children whose
    hash is one of them. *)
Definition spec_hashlist (t : gmap key file_row) (h : string) : bool :=
  bool_decide
    (1 < Z.of_nat
           (size (filter (λ kr, f_sha256 kr.2 = Some h
                                ∧ 0 < m_size (f_meta kr.2)) t))).

Definition spec_counted (t : gmap key file_row) (d : key)
    (kr : key * file_row) : bool :=
  bool_decide (kr.1.1 = d.1)
  && bool_decide (m_parent (f_meta kr.2) = Some d.2)
  && match f_sha256 kr.2 with
     | Some h => spec_hashlist t h
     | None => false
     end.

Definition spec_counts (t : gmap key file_row) (d : key) : Z :=
  Z.of_nat (size (filter (λ kr, spec_counted t d kr = true) t)).

(** All the rows the WHERE keeps, in the order of the ORDER BY. *)
Definition modified_sorted (t : gmap key file_row) : list (key * file_row) :=
  merge_sort size_le (filter (λ kr, is_modified kr.2 = true) (map_to_list t)).

(** What upserting one [File] with a stat does to the [files] table. *)
Definition upsert_row (t : gmap key file_row) (e : entity)
  : gmap key file_row :=
  match e with
  | File b sha rh =>
      match row_values b with
      | Some (k, m) =>
          <[k := match t !! k with
                 | None => new_file_row m
                 | Some _ => {| f_meta := m; f_sha256 := sha; f_rehash := rh |}
                 end]> t
      | None => t
      end
  | Dir _ _ => t
  end.

Definition file_with_stat (e : entity) : Prop :=
  match e with
  | File b _ _ => is_Some (stat b)
  | Dir _ _ => False
  end.

(** The [files] table as it will be once the pending entities are flushed. *)
Definition view (st : hash_state) : gmap key file_row :=
  foldl upsert_row (files (db st)) (pending st).

(** What handling one selected file does to that table. *)
Definition hash_row (fs : filesystem) (t : gmap key file_row) (file : entity)
  : gmap key file_row :=
  let fullpath := path_join (volume (base file)) (path (base file)) in
  match fs fullpath with
  | Some nd =>
      upsert_row t (rehashed (nd_stat nd) (sha256sum fs fullpath) file)
  | None => delete (key_of (base file)) t
  end.

(** The row the loop writes for a file found on disk. *)
Definition rehashed_row (p : option string) (nd : fs_node) : file_row :=
  {| f_meta := {| m_parent := p; m_size := st_size (nd_stat nd);
                  m_ctime := st_ctime (nd_stat nd);
                  m_mtime := st_mtime (nd_stat nd);
                  m_atime := st_atime (nd_stat nd) |};
     f_sha256 := nd_digest nd;
     f_rehash := None |}.

Definition start (c : catalog) : hash_state :=
  {| db := c; pending := []; hashed := 0; saved := 0; skip := 0 |}.

(** The rows the loop still has to handle. *)
Definition to_hash (t : gmap key file_row) : gmap key file_row :=
  filter (λ kr, is_modified kr.2 = true) t.

Global Instance table_eq_dec : EqDecision table.
Proof. solve_decision. Defined.

(** The keys of the entities of a batch that go to table [tb]. *)
Definition keys_of_table (tb : table) (fs : list entity) : list key :=
  (λ e, key_of (base e)) <$> filter (λ e, _table e = tb) fs.

(** The [files] table [calc_hash] aims at: a row to hash that is gone from
    disk is deleted, a row to hash that is on disk carries the stat and the
    digest found there and no flag, any other row is as it was. *)
Definition hashed_table (fs : filesystem) (t : gmap key file_row)
  : gmap key file_row :=
  map_imap (λ k r, if is_modified r
                   then rehashed_row (m_parent (f_meta r))
                          <$> fs (path_join k.1 k.2)
                   else Some r) t.

(** Two [dirs] tables with the same rows up to their counts. *)
Definition same_dirs_meta (d1 d2 : gmap key dir_row) : Prop :=
  ∀ k, d_meta <$> d1 !! k = d_meta <$> d2 !! k.

(** The selected files that are found on disk. *)
Definition on_disk (fs : filesystem) (l : list entity) : list entity :=
  filter (λ e, is_Some (fs (path_join (volume (base e)) (path (base e))))) l.

(** The bookkeeping of a turn: what is counted as hashed is either saved or
    pending. *)
Definition unsaved (st : hash_state) : Z :=
  hashed st - saved st - Z.of_nat (length (pending st)).

(** Two states of the loop between two turns that differ at most in the
    counts of [dirs]. *)
Definition same_turn (st1 st2 : hash_state) : Prop :=
  pending st1 = [] ∧ pending st2 = []
  ∧ files (db st1) = files (db st2)
  ∧ same_dirs_meta (dirs (db st1)) (dirs (db st2))
  ∧ hashed st1 = hashed st2 ∧ saved st1 = saved st2 ∧ skip st1 = skip st2.

(** Every row of [t] is the row of [t0], or what the loop makes of a row of
    [t0] that was to hash. *)
Definition on_the_way (fs : filesystem) (t0 t : gmap key file_row) : Prop :=
  ∀ k, t !! k = t0 !! k
       ∨ ∃ r, t0 !! k = Some r ∧ is_modified r = true
              ∧ t !! k = rehashed_row (m_parent (f_meta r))
                           <$> fs (path_join k.1 k.2).

(** The number of rows to hash whose file is on disk. *)
Definition to_hash_on_disk (fs : filesystem) (t : gmap key file_row) : nat :=
  size (filter (λ kr, is_Some (fs (path_join kr.1.1 kr.1.2))) (to_hash t)).

(** The table an event is about. *)
Definition event_table (ev : event) : table :=
  match ev with
  | FileCreatedEvent _ | FileDeletedEvent _ | FileModifiedEvent _
  | FileMovedEvent _ _ => files_table
  | DirCreatedEvent _ | DirDeletedEvent _ | DirModifiedEvent _
  | DirMovedEvent _ _ => dirs_table
  end.

(** * Sample data *)

Definition stat_of (size time : Z) : stat_result :=
  {| st_size := size; st_ctime := time; st_mtime := time; st_atime := time |}.

Definition meta_of (p : option string) (size time : Z) : meta :=
  {| m_parent := p; m_size := size; m_ctime := time; m_mtime := time;
     m_atime := time |}.

(** A scanned file as [FileFinder.find] builds it. *)
Definition scanned_file (v p d : string) (size time : Z) : entity :=
  File {| volume := v; path := p; parent := Some d;
          stat := Some (stat_of size time) |} None None.

Definition scanned_dir (v p : string) (d : option string) (size time : Z)
  : entity :=
  Dir {| volume := v; path := p; parent := d;
         stat := Some (stat_of size time) |} None.

Definition hashed_row (d : string) (size time : Z) (h : string) : file_row :=
  {| f_meta := meta_of (Some d) size time; f_sha256 := Some h;
     f_rehash := Some false |}.

(** Volume v1 holds docs/a.txt, volume v2 holds music/b.mp3. *)
Definition two_volumes : catalog :=
  {| files := {[ ("v1", "docs/a.txt") := hashed_row "docs" 10 100 "h1";
                 ("v2", "music/b.mp3") := hashed_row "music" 7 100 "h2" ]};
     dirs := {[ ("v1", "docs") := {| d_meta := meta_of None 4096 100;
                                     d_count := Some 0 |} ]} |}.

(** A scan of volume v1 only, its one file unchanged. *)
Definition scan_of_v1 : list entity :=
  [scanned_file "v1" "docs/a.txt" "docs" 10 100].

(** The file of volume v1 as a second scan finds it: grown and rewritten. *)
Definition scan_of_v1_changed : list entity :=
  [scanned_file "v1" "docs/a.txt" "docs" 20 200].

(** An empty file and a file of five bytes that carry the same hash, both in
    directory dir1 of volume v1. *)
Definition stale_empty_file : catalog :=
  {| files := {[ ("v1", "dir1/x") := hashed_row "dir1" 0 100 "hX";
                 ("v1", "dir1/y") := hashed_row "dir1" 5 100 "hX" ]};
     dirs := {[ ("v1", "dir1") := {| d_meta := meta_of None 4096 100;
                                     d_count := None |} ]} |}.

(** Scenario 3 of the specification. *)
Definition scenario3 : catalog :=
  {| files := {[ ("v1", "dir1/x") := hashed_row "dir1" 3 100 "hX";
                 ("v1", "dir1/y") := hashed_row "dir1" 3 100 "hX";
                 ("v1", "dir1/z") := hashed_row "dir1" 9 100 "hZ" ]};
     dirs := {[ ("v1", "dir1") := {| d_meta := meta_of None 4096 100;
                                     d_count := None |} ]} |}.

(** Scenario 1 of the specification: a.txt, size 10, hash h1, not flagged. *)
Definition scenario1 : catalog :=
  {| files := {[ ("v1", "a.txt") := hashed_row "" 10 100 "h1" ]};
     dirs := ∅ |}.

(** Scenario 4 of the specification: old.txt with hash h9 moves to new.txt. *)
Definition scenario4 : catalog :=
  {| files := {[ ("v1", "old.txt") := hashed_row "" 10 100 "h9" ]};
     dirs := ∅ |}.

Definition one_file_fs (p : string) (nd : fs_node) : filesystem :=
  λ q, if decide (q = p) then Some nd else None.

(** A catalog with one hashed file, one file never hashed and one file
    flagged for rehash. *)
Definition three_files : catalog :=
  {| files := {[ ("v1", "a") := hashed_row "" 10 100 "h1";
                 ("v1", "b") := new_file_row (meta_of (Some "") 30 100);
                 ("v1", "c") := set_rehash (Some true)
                                  (hashed_row "" 20 100 "h3") ]};
     dirs := ∅ |}.

(** One file, hashed once and flagged for rehash since. *)
Definition flagged_file : catalog :=
  {| files := {[ ("v1", "docs/a.txt")
                 := set_rehash (Some true) (hashed_row "docs" 10 100 "h1") ]};
     dirs := ∅ |}.

(** The file is on disk and cannot be read. *)
Definition unreadable_fs : filesystem :=
  one_file_fs "v1/docs/a.txt"
    {| nd_islink := false; nd_stat := stat_of 10 100; nd_digest := None |}.

(** A file that was never hashed, on disk and unreadable. *)
Definition unhashed_file : catalog :=
  {| files := {[ ("v1", "docs/a.txt")
                 := new_file_row (meta_of (Some "docs") 10 100) ]};
     dirs := ∅ |}.


(** A directory whose only file has not been hashed yet. *)
Definition dir_with_unhashed_file : catalog :=
  {| files := {[ ("v1", "docs/a.txt")
                 := new_file_row (meta_of (Some "docs") 10 100);
                 ("v2", "music/b.mp3") := hashed_row "music" 7 100 "h2" ]};
     dirs := {[ ("v1", "docs") := {| d_meta := meta_of None 4096 100;
                                     d_count := None |} ]} |}.

(** * Properties *)

(** ** The INSERT ... SELECT ... ON CONFLICT of the reconcile *)

Section UpsertFacts.
Context {R : Type}.
Variable fresh : meta → R.
Variable clause : conflict_clause R.

Implicit Types (t : gmap key R) (T : gset key) (rows : list (key * meta)).

Lemma insert_on_conflict_other t T k ex t' T' k' :
  insert_on_conflict fresh clause (t, T) (k, ex) = Some (t', T') →
  k' ≠ k → t' !! k' = t !! k'.
Proof.
  unfold insert_on_conflict. intros H Hne.
  destruct (t !! k) as [r|] eqn:Hk.
  - destruct clause as [|upd]; [by simplify_eq|].
    destruct (decide (k ∈ T)); [done|].
    destruct (upd r ex); simplify_eq; [by rewrite lookup_insert_ne|done].
  - simplify_eq. by rewrite lookup_insert_ne.
Qed.

Lemma insert_on_conflict_touched t T k ex t' T' :
  insert_on_conflict fresh clause (t, T) (k, ex) = Some (t', T') →
  T ⊆ T' ∧ T' ⊆ {[k]} ∪ T.
Proof.
  unfold insert_on_conflict. intros H.
  destruct (t !! k) as [r|].
  - destruct clause as [|upd]; [simplify_eq; set_solver|].
    destruct (decide (k ∈ T)); [done|].
    destruct (upd r ex); simplify_eq; set_solver.
  - simplify_eq. set_solver.
Qed.

Lemma insert_on_conflict_here t T k ex t' T' :
  insert_on_conflict fresh clause (t, T) (k, ex) = Some (t', T') →
  k ∉ T → t' !! k = Some (proposed fresh clause (t !! k) ex).
Proof.
  unfold insert_on_conflict, proposed. intros H HT.
  destruct (t !! k) as [r|] eqn:Hk.
  - destruct clause as [|upd]; [by simplify_eq|].
    destruct (decide (k ∈ T)); [done|].
    destruct (upd r ex); simplify_eq; [by rewrite lookup_insert_eq|done].
  - simplify_eq. by rewrite lookup_insert_eq.
Qed.

Lemma insert_on_conflict_fresh_key t T k ex :
  k ∉ T → is_Some (insert_on_conflict fresh clause (t, T) (k, ex)).
Proof.
  unfold insert_on_conflict. intros HT.
  destruct (t !! k) as [r|]; [|done].
  destruct clause as [|upd]; [done|].
  rewrite decide_False by done. by destruct (upd r ex).
Qed.

(** A proposal always leaves a row at its key. *)
Lemma insert_on_conflict_present t T k ex t' T' :
  insert_on_conflict fresh clause (t, T) (k, ex) = Some (t', T') →
  is_Some (t' !! k).
Proof.
  unfold insert_on_conflict. intros H.
  destruct (t !! k) as [r|] eqn:Hk.
  - destruct clause as [|upd]; [simplify_eq; by rewrite Hk|].
    destruct (decide (k ∈ T)); [done|].
    destruct (upd r ex); simplify_eq;
      [by rewrite lookup_insert_eq|by rewrite Hk].
  - simplify_eq. by rewrite lookup_insert_eq.
Qed.

Lemma insert_select_cons kv rows st st' :
  insert_select fresh clause (kv :: rows) st = Some st' ↔
  ∃ st1, insert_on_conflict fresh clause st kv = Some st1
         ∧ insert_select fresh clause rows st1 = Some st'.
Proof.
  simpl. destruct (insert_on_conflict fresh clause st kv) as [st1|].
  - split; [by exists st1|]. by intros (? & ? & ?); simplify_eq.
  - split; [done|]. by intros (? & ? & ?).
Qed.

Lemma insert_select_other rows : ∀ t T t' T' k',
  insert_select fresh clause rows (t, T) = Some (t', T') →
  k' ∉ rows.*1 → t' !! k' = t !! k'.
Proof.
  induction rows as [|[k ex] rows IH]; intros t T t' T' k' H Hk'.
  - by injection H as <- <-.
  - apply insert_select_cons in H as ([t1 T1] & Hs & H).
    rewrite fmap_cons in Hk'. apply not_elem_of_cons in Hk' as [Hne Hk'].
    rewrite (IH _ _ _ _ _ H Hk').
    by eapply insert_on_conflict_other.
Qed.

(** After the command every row that was there or was proposed is there. *)
Lemma insert_select_present rows : ∀ t T t' T' k,
  insert_select fresh clause rows (t, T) = Some (t', T') →
  is_Some (t' !! k) ↔ is_Some (t !! k) ∨ k ∈ rows.*1.
Proof.
  induction rows as [|[k0 ex] rows IH]; intros t T t' T' k H.
  - injection H as <- <-. rewrite fmap_nil, elem_of_nil. tauto.
  - apply insert_select_cons in H as ([t1 T1] & Hs & H).
    rewrite (IH _ _ _ _ _ H), fmap_cons, elem_of_cons. simpl.
    destruct (decide (k = k0)) as [->|Hne].
    + pose proof (insert_on_conflict_present _ _ _ _ _ _ Hs). tauto.
    + rewrite (insert_on_conflict_other _ _ _ _ _ _ _ Hs Hne). tauto.
Qed.

Lemma insert_on_conflict_untouched t T k ex t' T' (ks : list key) :
  insert_on_conflict fresh clause (t, T) (k, ex) = Some (t', T') →
  k ∉ ks → (∀ k', k' ∈ k :: ks → k' ∉ T) → ∀ k', k' ∈ ks → k' ∉ T'.
Proof.
  intros Hs Hk HT k' Hk' HT'.
  apply insert_on_conflict_touched in Hs as [_ Hs].
  apply Hs in HT'. apply elem_of_union in HT' as [HT'|HT'].
  - apply elem_of_singleton in HT'. by subst.
  - apply (HT k'); [by apply elem_of_cons; right|done].
Qed.

(** With pairwise distinct staged keys the command cannot raise. *)
Lemma insert_select_NoDup_commits rows : ∀ t T,
  NoDup rows.*1 → (∀ k, k ∈ rows.*1 → k ∉ T) →
  is_Some (insert_select fresh clause rows (t, T)).
Proof.
  induction rows as [|[k ex] rows IH]; intros t T Hnd HT; [done|].
  rewrite fmap_cons in Hnd, HT. simpl in Hnd, HT.
  apply NoDup_cons in Hnd as [Hk Hnd].
  destruct (insert_on_conflict_fresh_key t T k ex) as [[t1 T1] Hs].
  { apply HT, elem_of_cons. by left. }
  cbn [insert_select]. rewrite Hs. apply IH; [done|].
  by eapply insert_on_conflict_untouched.
Qed.

(** With pairwise distinct staged keys each proposal decides its row. *)
Lemma insert_select_NoDup_lookup rows : ∀ t T t' T' k ex,
  insert_select fresh clause rows (t, T) = Some (t', T') →
  NoDup rows.*1 → (∀ k, k ∈ rows.*1 → k ∉ T) →
  (k, ex) ∈ rows → t' !! k = Some (proposed fresh clause (t !! k) ex).
Proof.
  induction rows as [|[k0 ex0] rows IH];
    intros t T t' T' k ex H Hnd HT Hin.
  - by apply elem_of_nil in Hin.
  - apply insert_select_cons in H as ([t1 T1] & Hs & H).
    rewrite fmap_cons in Hnd, HT. simpl in Hnd, HT.
    apply NoDup_cons in Hnd as [Hk0 Hnd].
    apply elem_of_cons in Hin as [Heq|Hin].
    + simplify_eq.
      rewrite (insert_select_other _ _ _ _ _ _ H Hk0).
      eapply insert_on_conflict_here; [done|].
      apply HT, elem_of_cons. by left.
    + assert (k ≠ k0) as Hne.
      { intros ->. apply Hk0. apply list_elem_of_fmap. by exists (k0, ex). }
      rewrite <-(insert_on_conflict_other _ _ _ _ _ _ _ Hs Hne).
      eapply IH; [done..| |done].
      by eapply insert_on_conflict_untouched.
Qed.

Lemma delete_unstaged_lookup rows t k :
  delete_unstaged rows t !! k = if decide (k ∈ rows.*1) then t !! k else None.
Proof.
  unfold delete_unstaged. rewrite map_lookup_filter.
  destruct (t !! k) as [r|] eqn:Hk; simpl; [|by case_decide].
  unfold guard. simpl. repeat case_decide; done.
Qed.

Lemma replace_table_lookup rows t t1 k :
  replace_table fresh clause rows t = Some t1 →
  k ∉ rows.*1 → t1 !! k = None.
Proof.
  unfold replace_table. intros H Hk.
  destruct (insert_select fresh clause rows (t, ∅)) as [[t' T']|]; [|done].
  simplify_eq. rewrite delete_unstaged_lookup. by rewrite decide_False.
Qed.

Lemma replace_table_NoDup rows t :
  NoDup rows.*1 → is_Some (replace_table fresh clause rows t).
Proof.
  intros Hnd. unfold replace_table.
  destruct (insert_select_NoDup_commits rows t ∅ Hnd) as [[t' T'] ->];
    [set_solver|done].
Qed.

Lemma replace_table_NoDup_lookup rows t t1 k ex :
  replace_table fresh clause rows t = Some t1 →
  NoDup rows.*1 → (k, ex) ∈ rows →
  t1 !! k = Some (proposed fresh clause (t !! k) ex).
Proof.
  unfold replace_table. intros H Hnd Hin.
  destruct (insert_select fresh clause rows (t, ∅)) as [[t' T']|] eqn:Hf;
    [|done].
  simplify_eq. rewrite delete_unstaged_lookup, decide_True.
  - eapply insert_select_NoDup_lookup; [done..|set_solver|done].
  - apply list_elem_of_fmap. by exists (k, ex).
Qed.

(** *** A second run of the same command finds nothing to do *)

Hypothesis fresh_settled : ∀ ex, settled clause (fresh ex) ex.
Hypothesis update_settled : ∀ upd r ex r' ex',
  clause = DoUpdate upd → upd r ex = Some r' → settled clause r' ex'.

Lemma insert_on_conflict_settles t T k ex t' T' :
  insert_on_conflict fresh clause (t, T) (k, ex) = Some (t', T') →
  ∃ r, t' !! k = Some r ∧ settled clause r ex.
Proof.
  unfold insert_on_conflict. intros H.
  destruct (t !! k) as [r|] eqn:Hk.
  - destruct clause as [|upd] eqn:Hc.
    { injection H as <- <-. by exists r. }
    destruct (decide (k ∈ T)); [done|].
    destruct (upd r ex) as [r'|] eqn:Hu; injection H as <- <-.
    + exists r'. rewrite lookup_insert_eq. split; [done|].
      by eapply update_settled.
    + exists r. split; [done|]. by left.
  - simplify_eq. exists (fresh ex). by rewrite lookup_insert_eq.
Qed.

Lemma insert_on_conflict_keeps_settled t T k0 ex0 t' T' k ex :
  insert_on_conflict fresh clause (t, T) (k0, ex0) = Some (t', T') →
  (∃ r, t !! k = Some r ∧ settled clause r ex) →
  ∃ r, t' !! k = Some r ∧ settled clause r ex.
Proof.
  intros Hs (r & Hk & Hr).
  destruct (decide (k = k0)) as [->|Hne].
  2: { exists r. by rewrite (insert_on_conflict_other _ _ _ _ _ _ _ Hs Hne). }
  unfold insert_on_conflict in Hs. rewrite Hk in Hs.
  destruct clause as [|upd] eqn:Hc; [injection Hs as <- <-; by exists r|].
  destruct (decide (k0 ∈ T)); [done|].
  destruct (upd r ex0) as [r'|] eqn:Hu; injection Hs as <- <-;
    [|by exists r].
  exists r'. rewrite lookup_insert_eq. split; [done|].
  by eapply update_settled.
Qed.

Lemma insert_select_keeps_settled rows : ∀ t T t' T' k ex,
  insert_select fresh clause rows (t, T) = Some (t', T') →
  (∃ r, t !! k = Some r ∧ settled clause r ex) →
  ∃ r, t' !! k = Some r ∧ settled clause r ex.
Proof.
  induction rows as [|[k0 ex0] rows IH]; intros t T t' T' k ex H Hr.
  - by injection H as <- <-.
  - apply insert_select_cons in H as ([t1 T1] & Hs & H).
    eapply IH; [done|]. by eapply insert_on_conflict_keeps_settled.
Qed.

Lemma insert_select_settles rows : ∀ t T t' T' k ex,
  insert_select fresh clause rows (t, T) = Some (t', T') →
  (k, ex) ∈ rows → ∃ r, t' !! k = Some r ∧ settled clause r ex.
Proof.
  induction rows as [|[k0 ex0] rows IH]; intros t T t' T' k ex H Hin.
  - by apply elem_of_nil in Hin.
  - apply insert_select_cons in H as ([t1 T1] & Hs & H).
    apply elem_of_cons in Hin as [Heq|Hin]; [|by eapply IH].
    simplify_eq. eapply insert_select_keeps_settled; [done|].
    by eapply insert_on_conflict_settles.
Qed.

Lemma insert_select_settled_fixed rows : ∀ t T t' T',
  (∀ k ex, (k, ex) ∈ rows → ∃ r, t !! k = Some r ∧ settled clause r ex) →
  insert_select fresh clause rows (t, T) = Some (t', T') → t' = t.
Proof.
  induction rows as [|[k0 ex0] rows IH]; intros t T t' T' Hall H.
  - by injection H as <- <-.
  - apply insert_select_cons in H as ([t1 T1] & Hs & H).
    assert (t1 = t) as ->.
    { destruct (Hall k0 ex0) as (r & Hk & Hr); [by left|].
      unfold insert_on_conflict in Hs. rewrite Hk in Hs.
      unfold settled in Hr.
      destruct clause as [|upd]; [by simplify_eq|].
      destruct (decide (k0 ∈ T)); [done|].
      destruct Hr as [Hr|Hr]; rewrite Hr in Hs; simplify_eq; [done|].
      by apply insert_id. }
    eapply IH; [|done]. intros k ex Hin. apply Hall. by right.
Qed.

Lemma replace_table_twice rows t t1 t2 :
  replace_table fresh clause rows t = Some t1 →
  replace_table fresh clause rows t1 = Some t2 → t2 = t1.
Proof.
  unfold replace_table. intros H1 H2.
  destruct (insert_select fresh clause rows (t, ∅)) as [[t' T']|] eqn:Hf1;
    [|done].
  destruct (insert_select fresh clause rows (t1, ∅)) as [[t'' T'']|] eqn:Hf2;
    [|done].
  simplify_eq.
  apply insert_select_settled_fixed in Hf2 as ->.
  - apply map_eq. intros k. rewrite !delete_unstaged_lookup.
    by case_decide.
  - intros k ex Hin. rewrite delete_unstaged_lookup, decide_True.
    + by eapply insert_select_settles.
    + apply list_elem_of_fmap. by exists (k, ex).
Qed.
End UpsertFacts.

Section UpsertEvolves.
Context {R : Type}.
Variable fresh : meta → R.
Variable clause : conflict_clause R.
Variable evolves : R → R → Prop.

Hypothesis evolves_refl : ∀ r, evolves r r.
Hypothesis evolves_trans : ∀ r1 r2 r3,
  evolves r1 r2 → evolves r2 r3 → evolves r1 r3.
Hypothesis update_evolves : ∀ upd r ex r',
  clause = DoUpdate upd → upd r ex = Some r' → evolves r r'.

(** A row that was there before the command is still there, evolved. *)
Lemma insert_select_evolves rows : ∀ (t : gmap key R) T t' T' k r,
  insert_select fresh clause rows (t, T) = Some (t', T') →
  t !! k = Some r → ∃ r', t' !! k = Some r' ∧ evolves r r'.
Proof.
  induction rows as [|[k0 ex0] rows IH]; intros t T t' T' k r H Hk.
  - injection H as <- <-. by exists r.
  - apply insert_select_cons in H as ([t1 T1] & Hs & H).
    assert (∃ r1, t1 !! k = Some r1 ∧ evolves r r1) as (r1 & Hk1 & Hr1).
    { destruct (decide (k = k0)) as [->|Hne].
      2: { exists r. by rewrite (insert_on_conflict_other _ _ _ _ _ _ _ _ _ Hs Hne). }
      unfold insert_on_conflict in Hs. rewrite Hk in Hs.
      destruct clause as [|upd] eqn:Hc; [simplify_eq; by exists r|].
      destruct (decide (k0 ∈ T)); [done|].
      destruct (upd r ex0) as [r'|] eqn:Hu; simplify_eq; [|by exists r].
      exists r'. rewrite lookup_insert_eq. split; [done|].
      by eapply update_evolves. }
    destruct (IH _ _ _ _ _ _ H Hk1) as (r' & Hk' & Hr').
    exists r'. split; [done|]. by eapply evolves_trans.
Qed.
End UpsertEvolves.

(** ** Facts about the two instances of the reconcile *)

Lemma copy_files_exist_keys fs : ∀ rows,
  copy_files_exist fs = Some rows → rows.*1 = scanned_keys fs.
Proof.
  induction fs as [|f fs IH]; intros rows H; simpl in H.
  - by simplify_eq.
  - unfold row_values in H. destruct (stat (base f)); [|done].
    destruct (copy_files_exist fs) as [l|]; [|done].
    simplify_eq. unfold scanned_keys. rewrite !fmap_cons. simpl.
    f_equal. by apply IH.
Qed.

Lemma copy_files_exist_elem fs : ∀ rows e kv,
  copy_files_exist fs = Some rows →
  e ∈ fs → row_values (base e) = Some kv → kv ∈ rows.
Proof.
  induction fs as [|f fs IH]; intros rows e kv H Hin Hrv.
  - by apply elem_of_nil in Hin.
  - simpl in H. destruct (row_values (base f)) as [kv0|] eqn:Hf; [|done].
    destruct (copy_files_exist fs) as [l|]; [|done].
    simplify_eq. apply elem_of_cons in Hin as [->|Hin].
    + rewrite Hf in Hrv. simplify_eq. by left.
    + right. by eapply IH.
Qed.

Lemma copy_files_exist_stat fs :
  Forall (λ e, is_Some (stat (base e))) fs → is_Some (copy_files_exist fs).
Proof.
  induction 1 as [|f fs [st Hst] _ [l IH]]; [done|].
  simpl. unfold row_values. by rewrite Hst, IH.
Qed.

Lemma rehash_where_Some r ex r' :
  rehash_where r ex = Some r' → r' = set_rehash (Some true) r.
Proof. unfold rehash_where. intros H. destruct (_ || _); by simplify_eq. Qed.

Lemma flagged_trans r1 r2 r3 : flagged r1 r2 → flagged r2 r3 → flagged r1 r3.
Proof. unfold flagged. intros [->| ->] [->| ->]; auto. Qed.

Lemma files_update_flagged upd r ex r' :
  files_clause = DoUpdate upd → upd r ex = Some r' → flagged r r'.
Proof. intros Hc Hu. injection Hc as <-. right. by eapply rehash_where_Some. Qed.

Lemma files_fresh_settled ex : settled files_clause (new_file_row ex) ex.
Proof.
  left. unfold rehash_where. simpl.
  rewrite !bool_decide_eq_false_2; [done|by intros []..].
Qed.

Lemma files_update_settled upd r ex r' ex' :
  files_clause = DoUpdate upd → upd r ex = Some r' →
  settled files_clause r' ex'.
Proof.
  intros Hc Hu. injection Hc as <-. apply rehash_where_Some in Hu as ->.
  unfold settled, files_clause, rehash_where.
  destruct (_ || _); [by right|by left].
Qed.

Lemma dirs_update_eq upd (r : dir_row) ex r' :
  dirs_clause = DoUpdate upd → upd r ex = Some r' → r = r'.
Proof. done. Qed.

(** The reconcile of a [File] listing, as the table it leaves. *)
Lemma upsert_files_replace_files b sha rh fs c c1 :
  upsert_files_replace (File b sha rh :: fs) c = Committed c1 →
  ∃ rows, copy_files_exist (File b sha rh :: fs) = Some rows
    ∧ replace_table new_file_row files_clause rows (files c) = Some (files c1)
    ∧ dirs c1 = dirs c.
Proof.
  unfold upsert_files_replace. intros H.
  destruct (copy_files_exist _) as [rows|]; [|done].
  exists rows. simpl in H.
  destruct (replace_table _ _ _ _) as [t|]; by simplify_eq.
Qed.

Lemma upsert_files_replace_dirs b cnt fs c c1 :
  upsert_files_replace (Dir b cnt :: fs) c = Committed c1 →
  ∃ rows, copy_files_exist (Dir b cnt :: fs) = Some rows
    ∧ replace_table new_dir_row dirs_clause rows (dirs c) = Some (dirs c1)
    ∧ files c1 = files c.
Proof.
  unfold upsert_files_replace. intros H.
  destruct (copy_files_exist _) as [rows|]; [|done].
  exists rows. simpl in H.
  destruct (replace_table _ _ _ _) as [t|]; by simplify_eq.
Qed.

(** A listing with a stat on every entity and pairwise distinct keys is
    committed. *)
Lemma upsert_files_replace_commits fs c :
  Forall (λ e, is_Some (stat (base e))) fs → NoDup (scanned_keys fs) →
  ∃ c1, upsert_files_replace fs c = Committed c1.
Proof.
  intros Hst Hnd. destruct fs as [|f0 fs]; [by exists c|].
  unfold upsert_files_replace.
  destruct (copy_files_exist_stat _ Hst) as [rows Hrows]. rewrite Hrows.
  rewrite <-(copy_files_exist_keys _ _ Hrows) in Hnd.
  destruct (_table f0).
  - destruct (replace_table_NoDup new_file_row files_clause rows (files c) Hnd)
      as [t ->]. by eexists.
  - destruct (replace_table_NoDup new_dir_row dirs_clause rows (dirs c) Hnd)
      as [t ->]. by eexists.
Qed.

(** A staged row that was in the table before the command is kept: as it
    was, or with the rehash flag set. *)
Lemma replace_table_files_kept rows t t1 k r :
  replace_table new_file_row files_clause rows t = Some t1 →
  k ∈ rows.*1 → t !! k = Some r →
  t1 !! k = Some r ∨ t1 !! k = Some (set_rehash (Some true) r).
Proof.
  unfold replace_table. intros H Hin Hk.
  destruct (insert_select _ _ _ _) as [[t' T']|] eqn:Hf; [|done].
  simplify_eq. rewrite delete_unstaged_lookup, decide_True by done.
  destruct (insert_select_evolves new_file_row files_clause flagged
              (λ r, or_introl eq_refl) flagged_trans files_update_flagged
              _ _ _ _ _ _ _ Hf Hk) as (r' & -> & [->| ->]); auto.
Qed.

Lemma replace_table_dirs_kept rows t t1 k r :
  replace_table new_dir_row dirs_clause rows t = Some t1 →
  k ∈ rows.*1 → t !! k = Some r → t1 !! k = Some r.
Proof.
  unfold replace_table. intros H Hin Hk.
  destruct (insert_select _ _ _ _) as [[t' T']|] eqn:Hf; [|done].
  simplify_eq. rewrite delete_unstaged_lookup, decide_True by done.
  destruct (insert_select_evolves new_dir_row dirs_clause eq
              (λ r, eq_refl) (@eq_trans _) dirs_update_eq
              _ _ _ _ _ _ _ Hf Hk) as (r' & -> & ->); auto.
Qed.

(** ** Reconcile *)

(** C1 (as the code has it).  The deletion phase of the reconcile is not
    scoped by volume: after a committed reconcile of a non-empty listing, the
    table of the reconciled kind holds no row whose key is absent from the
    staged listing, whatever its volume; a row whose key is staged and that
    was there before is kept with all its fields, except that a file row may
    have its rehash flag set; the table of the other kind is unchanged. *)
Theorem reconcile_prunes_every_unstaged_key f0 fs c c1 :
  upsert_files_replace (f0 :: fs) c = Committed c1 →
  match _table f0 with
  | files_table =>
      dirs c1 = dirs c
      ∧ (∀ k, k ∉ scanned_keys (f0 :: fs) → files c1 !! k = None)
      ∧ (∀ k r, k ∈ scanned_keys (f0 :: fs) → files c !! k = Some r →
           files c1 !! k = Some r
           ∨ files c1 !! k = Some (set_rehash (Some true) r))
  | dirs_table =>
      files c1 = files c
      ∧ (∀ k, k ∉ scanned_keys (f0 :: fs) → dirs c1 !! k = None)
      ∧ (∀ k r, k ∈ scanned_keys (f0 :: fs) → dirs c !! k = Some r →
           dirs c1 !! k = Some r)
  end.
Proof.
  intros H. destruct f0 as [b sha rh|b cnt]; cbn [_table].
  - apply upsert_files_replace_files in H as (rows & Hrows & Ht & Hd).
    apply copy_files_exist_keys in Hrows. rewrite <-Hrows.
    split_and!; [done| |].
    + intros k Hk. by eapply replace_table_lookup.
    + intros k r Hk Hr. by eapply replace_table_files_kept.
  - apply upsert_files_replace_dirs in H as (rows & Hrows & Ht & Hd).
    apply copy_files_exist_keys in Hrows. rewrite <-Hrows.
    split_and!; [done| |].
    + intros k Hk. by eapply replace_table_lookup.
    + intros k r Hk Hr. by eapply replace_table_dirs_kept.
Qed.

(** Volume v1 alone is scanned, with its one file unchanged. *)
Lemma reconcile_prunes_every_unstaged_key_witness :
  ∃ c1, upsert_files_replace [scanned_file "v1" "docs/a.txt" "docs" 10 100]
          two_volumes = Committed c1
    ∧ dirs c1 = dirs two_volumes
    ∧ files c1 !! ("v2", "music/b.mp3") = None
    ∧ (files c1 !! ("v1", "docs/a.txt") = Some (hashed_row "docs" 10 100 "h1")
       ∨ files c1 !! ("v1", "docs/a.txt")
         = Some (set_rehash (Some true) (hashed_row "docs" 10 100 "h1"))).
Proof.
  eexists. split; [reflexivity|].
  pose proof (reconcile_prunes_every_unstaged_key
                (scanned_file "v1" "docs/a.txt" "docs" 10 100) [] two_volumes
                _ eq_refl) as (Hd & Hgone & Hkept).
  split_and!; [exact Hd| |].
  - apply Hgone. vm_compute. intros [Heq|Hin]%elem_of_cons; [done|inversion Hin].
  - apply Hkept; [|reflexivity]. vm_compute. by left.
Defined.

(** C1 as stated fails: the reconcile of a listing of volume v1 deletes the
    row of volume v2, a volume that does not appear in the scanned set. *)
Lemma reconcile_deletes_unscanned_volume :
  files two_volumes !! ("v2", "music/b.mp3")
    = Some (hashed_row "music" 7 100 "h2")
  ∧ ("v2" ∉ scanned_volumes scan_of_v1)
  ∧ (∃ c1, upsert_files_replace scan_of_v1 two_volumes = Committed c1
           ∧ files c1 !! ("v2", "music/b.mp3") = None).
Proof.
  split_and!.
  - reflexivity.
  - vm_compute. intros [Heq|Hin]%elem_of_cons; [done|inversion Hin].
  - eexists. split; reflexivity.
Qed.

(** C2 (as the code has it).  After a committed reconcile of a listing with
    pairwise distinct keys, every scanned entity has a row under its key: a
    key that was new carries the scanned parent, size and times (hash, flag
    and count NULL); a key that was there keeps its stored parent, size and
    times, a file row getting the rehash flag exactly when the WHERE on size
    and mtime holds and a directory row being left alone.  Every row whose
    key is not in the listing is gone. *)
Theorem reconcile_coverage f0 fs c c1 :
  upsert_files_replace (f0 :: fs) c = Committed c1 →
  NoDup (scanned_keys (f0 :: fs)) →
  match _table f0 with
  | files_table =>
      (∀ e k m, e ∈ f0 :: fs → row_values (base e) = Some (k, m) →
         files c1 !! k =
           Some (match files c !! k with
                 | None => new_file_row m
                 | Some r => default r (rehash_where r m)
                 end))
      ∧ (∀ k, k ∉ scanned_keys (f0 :: fs) → files c1 !! k = None)
  | dirs_table =>
      (∀ e k m, e ∈ f0 :: fs → row_values (base e) = Some (k, m) →
         dirs c1 !! k =
           Some (match dirs c !! k with
                 | None => new_dir_row m
                 | Some r => r
                 end))
      ∧ (∀ k, k ∉ scanned_keys (f0 :: fs) → dirs c1 !! k = None)
  end.
Proof.
  intros H Hnd. destruct f0 as [b sha rh|b cnt]; cbn [_table].
  - apply upsert_files_replace_files in H as (rows & Hrows & Ht & Hd).
    pose proof (copy_files_exist_keys _ _ Hrows) as Hkeys.
    rewrite <-Hkeys in *. split.
    + intros e k m He Hrv.
      pose proof (copy_files_exist_elem _ _ _ _ Hrows He Hrv) as Hin.
      by rewrite (replace_table_NoDup_lookup _ _ _ _ _ _ _ Ht Hnd Hin).
    + intros k Hk. by eapply replace_table_lookup.
  - apply upsert_files_replace_dirs in H as (rows & Hrows & Ht & Hd).
    pose proof (copy_files_exist_keys _ _ Hrows) as Hkeys.
    rewrite <-Hkeys in *. split.
    + intros e k m He Hrv.
      pose proof (copy_files_exist_elem _ _ _ _ Hrows He Hrv) as Hin.
      by rewrite (replace_table_NoDup_lookup _ _ _ _ _ _ _ Ht Hnd Hin).
    + intros k Hk. by eapply replace_table_lookup.
Qed.

Lemma reconcile_coverage_witness :
  ∃ c1, upsert_files_replace scan_of_v1_changed two_volumes = Committed c1
    ∧ NoDup (scanned_keys scan_of_v1_changed)
    ∧ files c1 !! ("v1", "docs/a.txt")
        = Some (set_rehash (Some true) (hashed_row "docs" 10 100 "h1"))
    ∧ files c1 !! ("v2", "music/b.mp3") = None.
Proof.
  assert (NoDup (scanned_keys scan_of_v1_changed)) as Hnd.
  { apply NoDup_singleton. }
  eexists. split; [reflexivity|]. split; [exact Hnd|].
  pose proof (reconcile_coverage
                (scanned_file "v1" "docs/a.txt" "docs" 20 200) [] two_volumes
                _ eq_refl Hnd) as [Hin Hout].
  split.
  - apply (Hin (scanned_file "v1" "docs/a.txt" "docs" 20 200)
               ("v1", "docs/a.txt") (meta_of (Some "docs") 20 200));
      [by left|reflexivity].
  - apply Hout. vm_compute. intros [Heq|Hin']%elem_of_cons;
      [done|inversion Hin'].
Defined.

(** C2 as stated fails: the key was in the catalog with size 10, the scan
    says size 20, the reconcile commits, and the row still says size 10. *)
Lemma reconcile_keeps_stored_size :
  scanned_file "v1" "docs/a.txt" "docs" 20 200 ∈ scan_of_v1_changed
  ∧ (∃ c1 r, upsert_files_replace scan_of_v1_changed two_volumes = Committed c1
             ∧ files c1 !! ("v1", "docs/a.txt") = Some r
             ∧ m_size (f_meta r) = 10
             ∧ m_size (f_meta r) ≠ 20).
Proof.
  split; [by left|].
  eexists _, _. split_and!; [reflexivity|reflexivity|reflexivity|done].
Qed.

(** C6.  Reconcile of a file listing with pairwise distinct keys, for a key
    that is both in the catalog and in the listing: the stored hash is
    unchanged; if the scanned size or mtime differs from the stored one the
    rehash flag is true afterwards; if both are equal the flag keeps its
    value.  Reconcile of a directory listing leaves the [files] table, the
    only place with a rehash flag, as it was. *)
Theorem reconcile_rehash f0 fs c c1 :
  upsert_files_replace (f0 :: fs) c = Committed c1 →
  NoDup (scanned_keys (f0 :: fs)) →
  match _table f0 with
  | files_table =>
      ∀ e k m r, e ∈ f0 :: fs → row_values (base e) = Some (k, m) →
        files c !! k = Some r →
        ∃ r', files c1 !! k = Some r'
          ∧ f_sha256 r' = f_sha256 r
          ∧ (m_size m ≠ m_size (f_meta r) ∨ m_mtime m ≠ m_mtime (f_meta r) →
             f_rehash r' = Some true)
          ∧ (m_size m = m_size (f_meta r) ∧ m_mtime m = m_mtime (f_meta r) →
             f_rehash r' = f_rehash r)
  | dirs_table => files c1 = files c
  end.
Proof.
  intros H Hnd. destruct f0 as [b sha rh|b cnt]; cbn [_table].
  - apply upsert_files_replace_files in H as (rows & Hrows & Ht & Hd).
    pose proof (copy_files_exist_keys _ _ Hrows) as Hkeys.
    rewrite <-Hkeys in *.
    intros e k m r He Hrv Hr.
    pose proof (copy_files_exist_elem _ _ _ _ Hrows He Hrv) as Hin.
    rewrite (replace_table_NoDup_lookup _ _ _ _ _ _ _ Ht Hnd Hin), Hr.
    eexists. split; [reflexivity|]. cbn [proposed files_clause].
    unfold rehash_where.
    destruct (bool_decide (m_size (f_meta r) ≠ m_size m)) eqn:Hs;
      [apply bool_decide_eq_true in Hs|apply bool_decide_eq_false in Hs];
      (destruct (bool_decide (m_mtime (f_meta r) ≠ m_mtime m)) eqn:Hm;
       [apply bool_decide_eq_true in Hm|apply bool_decide_eq_false in Hm]);
      simpl; split_and!; try done; try (intros [??]; congruence).
    intros [?|?]; [destruct Hs|destruct Hm]; congruence.
  - by apply upsert_files_replace_dirs in H as (rows & Hrows & Ht & Hd).
Qed.

Lemma reconcile_rehash_witness :
  ∃ c1 r', upsert_files_replace scan_of_v1_changed two_volumes = Committed c1
    ∧ NoDup (scanned_keys scan_of_v1_changed)
    ∧ files c1 !! ("v1", "docs/a.txt") = Some r'
    ∧ f_sha256 r' = Some "h1"
    ∧ f_rehash r' = Some true.
Proof.
  assert (NoDup (scanned_keys scan_of_v1_changed)) as Hnd.
  { apply NoDup_singleton. }
  destruct (reconcile_rehash
              (scanned_file "v1" "docs/a.txt" "docs" 20 200) [] two_volumes
              _ eq_refl Hnd
              (scanned_file "v1" "docs/a.txt" "docs" 20 200)
              ("v1", "docs/a.txt") (meta_of (Some "docs") 20 200)
              (hashed_row "docs" 10 100 "h1"))
    as (r' & Hr' & Hsha & Hdiff & _); [by left|reflexivity|reflexivity|].
  eexists _, r'. split_and!; [reflexivity|exact Hnd|exact Hr'|exact Hsha|].
  apply Hdiff. left. simpl. lia.
Defined.

(** C8.  Reconcile is idempotent: whatever the catalog and the listing, a
    second reconcile of the same listing leaves the catalog the first one
    left. *)
Theorem reconcile_idempotent fs c :
  after (upsert_files_replace fs (after (upsert_files_replace fs c) c))
        (after (upsert_files_replace fs c) c)
  = after (upsert_files_replace fs c) c.
Proof.
  destruct (upsert_files_replace fs c) as [c1|] eqn:H1; cbn [after].
  2: { by rewrite H1. }
  destruct (upsert_files_replace fs c1) as [c2|] eqn:H2; cbn [after]; [|done].
  destruct fs as [|f0 fs]; [simpl in *; by simplify_eq|].
  destruct f0 as [b sha rh|b cnt].
  - apply upsert_files_replace_files in H1 as (rows & Hrows & Ht & Hd).
    apply upsert_files_replace_files in H2 as (rows' & Hrows' & Ht' & Hd').
    rewrite Hrows in Hrows'. simplify_eq.
    pose proof (replace_table_twice _ _ files_fresh_settled
                  files_update_settled _ _ _ _ Ht Ht') as Heq.
    destruct c1, c2; simpl in *; by subst.
  - apply upsert_files_replace_dirs in H1 as (rows & Hrows & Ht & Hd).
    apply upsert_files_replace_dirs in H2 as (rows' & Hrows' & Ht' & Hd').
    rewrite Hrows in Hrows'. simplify_eq.
    assert (dirs c2 = dirs c1) as Heq.
    { eapply (replace_table_twice new_dir_row dirs_clause); [done|done|..];
        [exact Ht|exact Ht']. }
    destruct c1, c2; simpl in *; by subst.
Qed.

(** ** Duplicate counts *)

Lemma hashlist_shares_hash t kf f h :
  t !! kf = Some f → f_sha256 f = Some h →
  hashlist t h = true ↔
  ∃ k2 f2, k2 ≠ kf ∧ t !! k2 = Some f2 ∧ f_sha256 f2 = Some h.
Proof.
  intros Hkf Hh. unfold hashlist, hash_uses.
  set (F := filter (λ kr : key * file_row, f_sha256 kr.2 = Some h) t).
  assert (F !! kf = Some f) as HF by (by apply map_lookup_filter_Some).
  assert (size F = S (size (delete kf F))) as Hsz.
  { rewrite map_size_delete_Some by eauto.
    pose proof (map_size_ne_0_lookup_2 F kf (mk_is_Some _ _ HF)). lia. }
  rewrite bool_decide_eq_true, Hsz. split.
  - intros Hlt.
    destruct (map_size_ne_0_lookup_1 (delete kf F)) as (k2 & f2 & Hk2); [lia|].
    apply lookup_delete_Some in Hk2 as [Hne Hk2].
    apply map_lookup_filter_Some in Hk2 as [Hk2 Hh2].
    exists k2, f2. by split_and!.
  - intros (k2 & f2 & Hne & Hk2 & Hh2).
    assert (size (delete kf F) ≠ 0%nat); [|lia].
    apply (map_size_ne_0_lookup_2 _ k2). exists f2.
    apply lookup_delete_Some. split; [done|].
    by apply map_lookup_filter_Some.
Qed.

Lemma counted_spec t d kf f :
  t !! kf = Some f →
  counted t d (kf, f) = true ↔ child_with_content d kf f ∧ shares_hash t kf f.
Proof.
  intros Hkf. unfold counted, child_with_content, shares_hash. simpl.
  rewrite !andb_true_iff, !bool_decide_eq_true.
  destruct (f_sha256 f) as [h|] eqn:Hh.
  - rewrite (hashlist_shares_hash t kf f h Hkf Hh). split.
    + intros [[[??]?] (k2 & f2 & ? & ? & ?)]. split; [done|].
      by exists h, k2, f2.
    + intros [(? & ? & ?) (h' & k2 & f2 & ? & ? & ? & ?)]. simplify_eq.
      split; [done|]. by exists k2, f2.
  - split; [by intros [_ ?]|]. by intros [_ (h' & k2 & f2 & ? & _)].
Qed.

Lemma store_count_count n r :
  store_count n r = {| d_meta := d_meta r; d_count := Some n |}.
Proof.
  unfold store_count. case_bool_decide as H; [|done].
  destruct r. simpl in *. by subst.
Qed.

(** C3 (as the code has it).  After the recount every directory row keeps
    its metadata and carries as count the number of files that are its
    direct children (same volume, parent equal to its path), have a size
    above zero, and carry a hash that another file of the catalog carries
    too, whatever the size of that other file.  Nothing else changes. *)
Theorem update_counter_counts c c1 :
  update_counter c = Committed c1 →
  files c1 = files c
  ∧ ∀ d, match dirs c !! d with
         | None => dirs c1 !! d = None
         | Some r =>
             ∃ children : gmap key file_row,
               (∀ kf f, children !! kf = Some f ↔
                  files c !! kf = Some f ∧ child_with_content d kf f
                  ∧ shares_hash (files c) kf f)
               ∧ dirs c1 !! d
                 = Some {| d_meta := d_meta r;
                           d_count := Some (Z.of_nat (size children)) |}
         end.
Proof.
  unfold update_counter. intros H. simplify_eq. simpl. split; [done|].
  intros d. rewrite map_lookup_imap.
  destruct (dirs c !! d) as [r|]; simpl; [|done].
  exists (filter (λ kr, counted (files c) d kr = true) (files c)). split.
  - intros kf f. rewrite map_lookup_filter_Some. split.
    + intros [Hkf Hc]. split; [done|]. by apply counted_spec in Hc.
    + intros (Hkf & Hch & Hsh). split; [done|]. by apply counted_spec.
  - by rewrite store_count_count.
Qed.

(** Scenario 3: X and Y share a hash, Z does not; the directory counts 2. *)
Lemma update_counter_counts_witness :
  ∃ c1, update_counter scenario3 = Committed c1
    ∧ files c1 = files scenario3
    ∧ ∃ children : gmap key file_row,
        (∀ kf f, children !! kf = Some f ↔
           files scenario3 !! kf = Some f
           ∧ child_with_content ("v1", "dir1") kf f
           ∧ shares_hash (files scenario3) kf f)
        ∧ dirs c1 !! ("v1", "dir1")
          = Some {| d_meta := meta_of None 4096 100;
                    d_count := Some (Z.of_nat (size children)) |}.
Proof.
  eexists. split; [reflexivity|].
  destruct (update_counter_counts scenario3 _ eq_refl) as [Hf Hd].
  split; [exact Hf|]. exact (Hd ("v1", "dir1")).
Defined.

(** C3 as stated fails: with an empty file and a file of five bytes under
    the same hash, the claim's rule finds no duplicated hash (one file of
    size above zero carries it) and counts 0, and the recount stores 1. *)
Lemma update_counter_counts_empty_twin :
  spec_counts (files stale_empty_file) ("v1", "dir1") = 0
  ∧ (∃ c1 r, update_counter stale_empty_file = Committed c1
             ∧ dirs c1 !! ("v1", "dir1") = Some r
             ∧ d_count r = Some 1).
Proof.
  split; [by vm_compute|].
  eexists _, _. split_and!; [reflexivity|by vm_compute|by vm_compute].
Qed.

(** ** Move *)

Lemma update_key_moves {R : Type} (reparent : option string → R → R)
    (src dst : key) (p : option string) (t : gmap key R) (r : R) :
  t !! src = Some r → dst = src ∨ t !! dst = None →
  ∃ t1, update_key reparent src dst p t = Some t1
    ∧ t1 !! dst = Some (reparent p r)
    ∧ (dst ≠ src → t1 !! src = None)
    ∧ (∀ k, k ≠ src → k ≠ dst → t1 !! k = t !! k).
Proof.
  intros Hsrc Hdst. unfold update_key. rewrite Hsrc.
  destruct (decide (dst = src)) as [->|Hne].
  - eexists. split; [done|]. split_and!.
    + by rewrite lookup_insert_eq.
    + done.
    + intros k Hk _. by rewrite lookup_insert_ne.
  - destruct Hdst as [?|Hdst]; [done|]. rewrite Hdst.
    eexists. split; [done|]. split_and!.
    + by rewrite lookup_insert_eq.
    + intros _. by rewrite lookup_insert_ne, lookup_delete_eq.
    + intros k Hk1 Hk2. by rewrite lookup_insert_ne, lookup_delete_ne.
Qed.

(** C9.  A move of a file row whose destination key is free (or is the
    source key) commits; the row is then found under the destination key
    with the destination parent and with its size, times, hash and rehash
    flag as they were, the source key is vacated, and no other row and no
    directory row changes. *)
Theorem rename_files_preserves_content src dst sha rh sha' rh' c r :
  files c !! key_of src = Some r →
  key_of dst = key_of src ∨ files c !! key_of dst = None →
  ∃ c1, rename_files [(File src sha rh, File dst sha' rh')] c = Committed c1
    ∧ files c1 !! key_of dst
      = Some {| f_meta := {| m_parent := parent dst;
                             m_size := m_size (f_meta r);
                             m_ctime := m_ctime (f_meta r);
                             m_mtime := m_mtime (f_meta r);
                             m_atime := m_atime (f_meta r) |};
                f_sha256 := f_sha256 r;
                f_rehash := f_rehash r |}
    ∧ (key_of dst ≠ key_of src → files c1 !! key_of src = None)
    ∧ (∀ k, k ≠ key_of src → k ≠ key_of dst → files c1 !! k = files c !! k)
    ∧ dirs c1 = dirs c.
Proof.
  intros Hsrc Hdst.
  destruct (update_key_moves
              (λ p r, set_f_meta (set_parent p (f_meta r)) r)
              _ _ (parent dst) _ _ Hsrc Hdst) as (t1 & Ht1 & Hd & Hs & Ho).
  unfold rename_files, rename_each, rename_file. cbn [_table base].
  rewrite Ht1. eexists. split; [reflexivity|]. by split_and!.
Qed.

Lemma rename_files_preserves_content_witness :
  ∃ c1, rename_files [(File (key_only "v1" "old.txt") None None,
                       File {| volume := "v1"; path := "new.txt";
                               parent := Some "v1"; stat := None |}
                            None None)] scenario4 = Committed c1
    ∧ files c1 !! ("v1", "new.txt")
      = Some {| f_meta := meta_of (Some "v1") 10 100;
                f_sha256 := Some "h9"; f_rehash := Some false |}
    ∧ files c1 !! ("v1", "old.txt") = None.
Proof.
  destruct (rename_files_preserves_content
              (key_only "v1" "old.txt")
              {| volume := "v1"; path := "new.txt"; parent := Some "v1";
                 stat := None |}
              None None None None scenario4 (hashed_row "" 10 100 "h9"))
    as (c1 & Hc1 & Hd & Hs & _); [reflexivity|by right|].
  exists c1. split_and!; [exact Hc1|exact Hd|by apply Hs].
Defined.

(** ** Create *)

Lemma upsert_files_existing b sha rh c k m r :
  row_values b = Some (k, m) → files c !! k = Some r →
  upsert_files [File b sha rh] c
  = Committed {| files := <[k := {| f_meta := m; f_sha256 := sha;
                                    f_rehash := rh |}]> (files c);
                 dirs := dirs c |}.
Proof.
  intros Hrv Hk. unfold upsert_files, upsert_each, upsert_file.
  by rewrite Hrv, Hk.
Qed.

(** C7.  For a file key that is already in the catalog, a Create upsert
    overwrites the stored hash and rehash flag with the values the incoming
    entity carries; [on_created] builds the entity with both unset, so a
    create notification for a catalogued (hashed) file leaves its row with
    the fresh metadata and with hash and rehash flag NULL. *)
Theorem create_existing_resets_hash fs vol p nd c r sha rh :
  is_eaDir p = false →
  fs (path_join vol p) = Some nd → nd_islink nd = false →
  files c !! (vol, p) = Some r →
  let b := {| volume := vol; path := p; parent := Some (dirname p);
              stat := Some (nd_stat nd) |} in
  let m := {| m_parent := Some (dirname p); m_size := st_size (nd_stat nd);
              m_ctime := st_ctime (nd_stat nd);
              m_mtime := st_mtime (nd_stat nd);
              m_atime := st_atime (nd_stat nd) |} in
  files (after (set_created [File b sha rh] c) c) !! (vol, p)
    = Some {| f_meta := m; f_sha256 := sha; f_rehash := rh |}
  ∧ files (on_created fs vol (FileCreatedEvent p) c) !! (vol, p)
    = Some {| f_meta := m; f_sha256 := None; f_rehash := None |}.
Proof.
  intros Hea Hfs Hln Hr b m.
  assert (∀ sha rh, files (after (set_created [File b sha rh] c) c) !! (vol, p)
            = Some {| f_meta := m; f_sha256 := sha; f_rehash := rh |}) as H.
  { intros sha0 rh0. unfold set_created.
    rewrite (upsert_files_existing b sha0 rh0 c (vol, p) m r); [|done..].
    simpl. by rewrite lookup_insert_eq. }
  split; [apply H|].
  unfold on_created. cbn [src_path]. rewrite Hea, Hfs, Hln. apply H.
Qed.

Lemma create_existing_resets_hash_witness :
  files (on_created
           (one_file_fs "v1/docs/a.txt"
              {| nd_islink := false; nd_stat := stat_of 20 200;
                 nd_digest := Some "h1b" |})
           "v1" (FileCreatedEvent "docs/a.txt") two_volumes)
    !! ("v1", "docs/a.txt")
  = Some {| f_meta := meta_of (Some "docs") 20 200;
            f_sha256 := None; f_rehash := None |}.
Proof.
  exact (proj2 (create_existing_resets_hash
                  (one_file_fs "v1/docs/a.txt"
                     {| nd_islink := false; nd_stat := stat_of 20 200;
                        nd_digest := Some "h1b" |})
                  "v1" "docs/a.txt" _ two_volumes
                  (hashed_row "docs" 10 100 "h1") None None
                  eq_refl eq_refl eq_refl eq_refl)).
Defined.

(** ** Selection of the files to hash *)

Global Instance size_le_trans : Transitive size_le.
Proof. unfold size_le. intros x y z. lia. Qed.

Global Instance size_le_total : Total size_le.
Proof. unfold size_le. intros x y. lia. Qed.

Lemma elem_of_modified_sorted t k r :
  (k, r) ∈ modified_sorted t ↔ t !! k = Some r ∧ is_modified r = true.
Proof.
  unfold modified_sorted. rewrite merge_sort_Permutation.
  rewrite list_elem_of_filter, elem_of_map_to_list. simpl. tauto.
Qed.

Lemma NoDup_fst_filter {A B} (P : A * B → Prop) `{∀ x, Decision (P x)}
    (l : list (A * B)) :
  NoDup l.*1 → NoDup (filter P l).*1.
Proof.
  induction l as [|x l IH]; [done|].
  rewrite fmap_cons. intros [Hx Hl]%NoDup_cons.
  rewrite filter_cons. case_decide; [|by apply IH].
  rewrite fmap_cons. apply NoDup_cons. split; [|by apply IH].
  intros (y & Hy & Hin)%list_elem_of_fmap.
  apply list_elem_of_filter in Hin as [_ Hin].
  apply Hx. apply list_elem_of_fmap. by exists y.
Qed.

Lemma NoDup_modified_sorted t : NoDup (modified_sorted t).*1.
Proof.
  unfold modified_sorted. rewrite merge_sort_Permutation.
  apply NoDup_fst_filter, NoDup_fst_map_to_list.
Qed.

Lemma select_rows_take limit t :
  select_rows limit t
  = if bool_decide (0 < limit) then take (Z.to_nat limit) (modified_sorted t)
    else modified_sorted t.
Proof. done. Qed.

Lemma select_rows_sublist limit t :
  select_rows limit t `sublist_of` modified_sorted t.
Proof.
  rewrite select_rows_take. case_bool_decide; [apply sublist_take|done].
Qed.

Lemma NoDup_select_rows limit t : NoDup (select_rows limit t).*1.
Proof.
  eapply sublist_NoDup; [apply NoDup_modified_sorted|].
  apply fmap_sublist, select_rows_sublist.
Qed.

Lemma elem_of_select_rows limit t k r :
  (k, r) ∈ select_rows limit t → t !! k = Some r ∧ is_modified r = true.
Proof.
  intros Hin. apply elem_of_modified_sorted.
  eapply elem_of_sublist; [done|apply select_rows_sublist].
Qed.

Lemma is_modified_spec r :
  is_modified r = true ↔ f_sha256 r = None ∨ f_rehash r = Some true.
Proof.
  unfold is_modified. by rewrite orb_true_iff, !bool_decide_eq_true.
Qed.

(** C10.  With a positive limit, [select_files] with [modified] returns
    rows of [files], each at most once, every one with hash NULL or rehash
    flag TRUE, in ascending order of size, and at most [limit] of them; a
    file with hash NULL or rehash flag TRUE is left out only when [limit]
    rows are returned, and then it is no smaller than any returned row. *)
Theorem select_modified_sorted_capped limit c :
  0 < limit →
  ∃ rows,
    select_files true limit c = FileRowFactory <$> rows
    ∧ (∀ k r, (k, r) ∈ rows →
         files c !! k = Some r
         ∧ (f_sha256 r = None ∨ f_rehash r = Some true))
    ∧ NoDup rows.*1
    ∧ StronglySorted (λ x y, m_size (f_meta x.2) ≤ m_size (f_meta y.2)) rows
    ∧ Z.of_nat (length rows) ≤ limit
    ∧ (∀ k r, files c !! k = Some r →
         f_sha256 r = None ∨ f_rehash r = Some true →
         (k, r) ∈ rows
         ∨ (Z.of_nat (length rows) = limit
            ∧ ∀ kr, kr ∈ rows → m_size (f_meta kr.2) ≤ m_size (f_meta r))).
Proof.
  intros Hlim. exists (select_rows limit (files c)).
  split; [done|].
  split.
  { intros k r Hin. apply elem_of_select_rows in Hin as [? ?].
    by rewrite <-is_modified_spec. }
  split; [apply NoDup_select_rows|].
  pose proof (StronglySorted_merge_sort size_le
                (filter (λ kr, is_modified kr.2 = true)
                        (map_to_list (files c)))) as Hsorted.
  fold (modified_sorted (files c)) in Hsorted.
  rewrite select_rows_take, bool_decide_eq_true_2 by done.
  rewrite <-(take_drop (Z.to_nat limit) (modified_sorted (files c)))
    in Hsorted.
  split; [by apply StronglySorted_app_1_l in Hsorted|].
  split.
  { rewrite length_take. lia. }
  intros k r Hk Hmod.
  assert ((k, r) ∈ modified_sorted (files c)) as Hin.
  { apply elem_of_modified_sorted. by rewrite is_modified_spec. }
  rewrite <-(take_drop (Z.to_nat limit)) in Hin.
  apply elem_of_app in Hin as [Hin|Hin]; [by left|right].
  split.
  - rewrite length_take.
    assert (length (drop (Z.to_nat limit) (modified_sorted (files c))) ≠ 0%nat)
      as Hlen by (by destruct (drop _ _); [inversion Hin|]).
    rewrite length_drop in Hlen. lia.
  - intros kr Hkr.
    by apply (StronglySorted_app_1_elem_of _ _ _ _ _ Hsorted Hkr Hin).
Qed.

Lemma select_modified_sorted_capped_witness :
  ∃ rows,
    get_modified three_files = FileRowFactory <$> rows
    ∧ rows.*1 = [("v1", "c"); ("v1", "b")]
    ∧ Z.of_nat (length rows) ≤ 100.
Proof.
  destruct (select_modified_sorted_capped 100 three_files)
    as (rows & Hsel & _ & _ & _ & Hlen & _); [lia|].
  exists rows. split; [exact Hsel|]. split; [|exact Hlen].
  apply (f_equal (fmap (λ e, key_of (base e)))) in Hsel.
  rewrite <-list_fmap_compose in Hsel.
  rewrite (list_fmap_ext _ fst rows) in Hsel by (by intros ? [[??]?]).
  rewrite <-Hsel. reflexivity.
Defined.

(** ** The hashing loop *)

Lemma upsert_each_files p : ∀ c,
  Forall file_with_stat p →
  ∃ c', upsert_each p c = Some c'
        ∧ files c' = foldl upsert_row (files c) p ∧ dirs c' = dirs c.
Proof.
  induction p as [|e p IH]; intros c Hp.
  - by exists c.
  - apply Forall_cons in Hp as [He Hp].
    destruct e as [b sha rh|]; [|done]. destruct He as [s Hs].
    cbn [upsert_each upsert_file foldl upsert_row].
    unfold row_values. rewrite Hs.
    destruct (IH {| files := <[key_of b :=
                      match files c !! key_of b with
                      | Some _ => {| f_meta := {| m_parent := parent b;
                                       m_size := st_size s;
                                       m_ctime := st_ctime s;
                                       m_mtime := st_mtime s;
                                       m_atime := st_atime s |};
                                     f_sha256 := sha; f_rehash := rh |}
                      | None => new_file_row {| m_parent := parent b;
                                       m_size := st_size s;
                                       m_ctime := st_ctime s;
                                       m_mtime := st_mtime s;
                                       m_atime := st_atime s |}
                      end]> (files c); dirs := dirs c |} Hp)
      as (c' & Hc' & Hf & Hd).
    exists c'. rewrite Hc'. split; [done|]. split; [|done].
    rewrite Hf. simpl. by destruct (files c !! key_of b).
Qed.

Lemma set_updated_files p c :
  Forall file_with_stat p →
  files (after (set_updated p c) c) = foldl upsert_row (files c) p.
Proof.
  intros Hp. destruct p as [|e p]; [done|].
  cbn [set_updated]. unfold upsert_files.
  by destruct (upsert_each_files (e :: p) c Hp) as (c' & -> & Hf & _).
Qed.

Lemma view_flush st :
  Forall file_with_stat (pending st) → view (flush st) = view st.
Proof. intros Hp. unfold view, flush. simpl. by apply set_updated_files. Qed.

Lemma upsert_row_delete t e k :
  key_of (base e) ≠ k →
  upsert_row (delete k t) e = delete k (upsert_row t e).
Proof.
  intros Hne. destruct e as [b sha rh|]; [|done]. simpl in *.
  unfold row_values. destruct (stat b); [|done].
  by rewrite lookup_delete_ne, delete_insert_ne.
Qed.

Lemma foldl_upsert_row_delete p : ∀ t k,
  k ∉ scanned_keys p →
  foldl upsert_row (delete k t) p = delete k (foldl upsert_row t p).
Proof.
  induction p as [|e p IH]; intros t k Hk; [done|].
  unfold scanned_keys in Hk. rewrite fmap_cons in Hk.
  apply not_elem_of_cons in Hk as [Hne Hk].
  cbn [foldl]. rewrite upsert_row_delete by done. by apply IH.
Qed.

Lemma rehashed_file_with_stat st digest e :
  file_with_stat (rehashed st digest e) ↔ ∃ b sha rh, e = File b sha rh.
Proof.
  destruct e as [b sha rh|b cnt]; simpl.
  - split; [by exists b, sha, rh|by eexists].
  - split; [done|]. by intros (? & ? & ? & ?).
Qed.

Lemma rehashed_key st digest e :
  key_of (base (rehashed st digest e)) = key_of (base e).
Proof. by destruct e. Qed.

Section HashFile.
Variable fs : filesystem.
Variable expired : Z → bool.

Lemma hash_file_view st b sha rh :
  Forall file_with_stat (pending st) →
  key_of b ∉ scanned_keys (pending st) →
  view (hash_file fs expired st (File b sha rh))
  = hash_row fs (view st) (File b sha rh)
  ∧ Forall file_with_stat (pending (hash_file fs expired st (File b sha rh)))
  ∧ scanned_keys (pending (hash_file fs expired st (File b sha rh)))
    ⊆ key_of b :: scanned_keys (pending st).
Proof.
  intros Hp Hk. unfold hash_file, hash_row. cbn [base].
  destruct (fs (path_join (volume b) (path b))) as [nd|].
  - set (e := rehashed (nd_stat nd)
                (sha256sum fs (path_join (volume b) (path b)))
                (File b sha rh)).
    set (st1 := {| db := db st; pending := pending st ++ [e];
                   hashed := hashed st + 1; saved := saved st;
                   skip := skip st |}).
    assert (Forall file_with_stat (pending st1)) as Hp1.
    { apply Forall_app. split; [done|]. apply Forall_singleton.
      simpl. by eexists. }
    assert (view st1 = upsert_row (view st) e) as Hv1.
    { unfold view. simpl. by rewrite foldl_app. }
    assert (scanned_keys (pending st1) ⊆ key_of b :: scanned_keys (pending st))
      as Hk1.
    { unfold scanned_keys. simpl. rewrite fmap_app. simpl.
      intros x [Hx|Hx]%elem_of_app; [by right|].
      apply list_elem_of_singleton in Hx as ->. by left. }
    destruct (expired _).
    + rewrite view_flush by done. split; [done|].
      split; [by apply Forall_nil|]. by intros x Hx%elem_of_nil.
    + done.
  - set (st1 := {| db := after (set_deleted [File b sha rh] (db st)) (db st);
                   pending := pending st; hashed := hashed st;
                   saved := saved st; skip := skip st + 1 |}).
    assert (view st1 = delete (key_of b) (view st)) as Hv1.
    { unfold view. simpl. by apply foldl_upsert_row_delete. }
    assert (scanned_keys (pending st1) ⊆ key_of b :: scanned_keys (pending st))
      as Hk1 by (by intros x Hx; right).
    destruct (expired _).
    + rewrite view_flush by done. split; [done|].
      split; [by apply Forall_nil|]. by intros x Hx%elem_of_nil.
    + done.
Qed.

Lemma hash_fold_view l : ∀ st,
  Forall file_with_stat (pending st) →
  Forall file_with_stat l →
  NoDup (scanned_keys l) →
  (∀ k, k ∈ scanned_keys (pending st) → k ∉ scanned_keys l) →
  view (foldl (hash_file fs expired) st l) = foldl (hash_row fs) (view st) l
  ∧ Forall file_with_stat (pending (foldl (hash_file fs expired) st l)).
Proof.
  induction l as [|e l IH]; intros st Hp Hl Hnd Hdisj; [done|].
  apply Forall_cons in Hl as [He Hl].
  unfold scanned_keys in Hnd, Hdisj. rewrite fmap_cons in Hnd, Hdisj.
  apply NoDup_cons in Hnd as [Hk Hnd].
  destruct e as [b sha rh|]; [|done]. cbn [foldl].
  destruct (hash_file_view st b sha rh) as (Hv & Hp' & Hk'); [done|..].
  { intros Hin. apply (Hdisj _ Hin). by left. }
  destruct (IH (hash_file fs expired st (File b sha rh))) as [Hv' Hp''];
    [done..| |].
  { intros k Hin%Hk' Hkl. apply elem_of_cons in Hin as [->|Hin]; [done|].
    apply (Hdisj _ Hin). by right. }
  by rewrite Hv', Hv.
Qed.

(** The [files] table after a turn of the loop that starts with nothing
    pending does not depend on the clock. *)
Lemma hash_batch_files l st :
  pending st = [] → Forall file_with_stat l → NoDup (scanned_keys l) →
  files (db (hash_batch fs expired l st))
  = foldl (hash_row fs) (files (db st)) l
  ∧ pending (hash_batch fs expired l st) = [].
Proof.
  intros Hp Hl Hnd. split; [|done].
  destruct (hash_fold_view l st) as [Hv Hp'];
    [by rewrite Hp|done|done|by rewrite Hp; intros k Hk%elem_of_nil|].
  unfold hash_batch.
  change (files (db (flush ?s))) with (view (flush s)).
  rewrite view_flush by done. rewrite Hv. unfold view. by rewrite Hp.
Qed.
End HashFile.

Section HashRows.
Variable fs : filesystem.

Lemma hash_row_other t e k :
  key_of (base e) ≠ k → hash_row fs t e !! k = t !! k.
Proof.
  intros Hne. unfold hash_row.
  destruct (fs _) as [nd|]; [|by rewrite lookup_delete_ne].
  destruct e as [b sha rh|]; [|done]. simpl in *.
  by rewrite lookup_insert_ne.
Qed.

Lemma foldl_hash_row_other l : ∀ t k,
  k ∉ scanned_keys l → foldl (hash_row fs) t l !! k = t !! k.
Proof.
  induction l as [|e l IH]; intros t k Hk; [done|].
  unfold scanned_keys in Hk. rewrite fmap_cons in Hk.
  apply not_elem_of_cons in Hk as [Hne Hk].
  cbn [foldl]. rewrite IH by done. by apply hash_row_other.
Qed.

Lemma hash_row_selected t k r :
  t !! k = Some r →
  hash_row fs t (FileRowFactory (k, r)) !! k
  = rehashed_row (m_parent (f_meta r)) <$> fs (path_join k.1 k.2).
Proof.
  intros Hk. destruct k as [v p].
  unfold hash_row, FileRowFactory, key_of, sha256sum. simpl.
  destruct (fs _) as [nd|]; simpl; [|by rewrite lookup_delete_eq].
  unfold key_of. simpl. by rewrite lookup_insert_eq, Hk.
Qed.

Lemma foldl_hash_row_selected rows : ∀ t k r,
  NoDup rows.*1 → (k, r) ∈ rows → t !! k = Some r →
  foldl (hash_row fs) t (FileRowFactory <$> rows) !! k
  = rehashed_row (m_parent (f_meta r)) <$> fs (path_join k.1 k.2).
Proof.
  induction rows as [|[k0 r0] rows IH]; intros t k r Hnd Hin Hk.
  - by apply elem_of_nil in Hin.
  - rewrite fmap_cons in Hnd. apply NoDup_cons in Hnd as [Hk0 Hnd].
    rewrite fmap_cons. cbn [foldl].
    apply elem_of_cons in Hin as [Heq|Hin].
    + simplify_eq. rewrite foldl_hash_row_other.
      * by apply hash_row_selected.
      * unfold scanned_keys. rewrite <-list_fmap_compose.
        by rewrite (list_fmap_ext _ fst rows) by (by intros ? [[??]?]).
    + assert (k ≠ k0) as Hne.
      { intros ->. apply Hk0. apply list_elem_of_fmap. by exists (k0, r). }
      apply IH; [done..|]. rewrite hash_row_other; [done|].
      by destruct k0.
Qed.
End HashRows.

Lemma scanned_keys_FileRowFactory rows :
  scanned_keys (FileRowFactory <$> rows) = rows.*1.
Proof.
  unfold scanned_keys. rewrite <-list_fmap_compose.
  apply list_fmap_ext. by intros ? [[??]?].
Qed.

Lemma Forall_file_with_stat_FileRowFactory rows :
  Forall file_with_stat (FileRowFactory <$> rows).
Proof. apply Forall_fmap, Forall_true. intros kr. simpl. by eexists. Qed.

(** A turn of the loop: every selected file that is gone from disk is
    deleted, every selected file found on disk gets its stat, the digest
    [sha256sum] returned and rehash NULL; no other file row changes. *)
Lemma hash_batch_selected fs expired st :
  pending st = [] →
  let st' := hash_batch fs expired (get_modified (db st)) st in
  (∀ k r, (k, r) ∈ select_rows 100 (files (db st)) →
     files (db st') !! k
     = rehashed_row (m_parent (f_meta r)) <$> fs (path_join k.1 k.2))
  ∧ (∀ k, k ∉ (select_rows 100 (files (db st))).*1 →
       files (db st') !! k = files (db st) !! k)
  ∧ pending st' = [].
Proof.
  intros Hp st'. unfold st', get_modified, select_files.
  destruct (hash_batch_files fs expired
              (FileRowFactory <$> select_rows 100 (files (db st))) st)
    as [Hf Hp']; [done|apply Forall_file_with_stat_FileRowFactory| |].
  { rewrite scanned_keys_FileRowFactory. apply NoDup_select_rows. }
  rewrite Hf. split_and!; [| |done].
  - intros k r Hin. apply foldl_hash_row_selected;
      [apply NoDup_select_rows|done|].
    by apply elem_of_select_rows in Hin as [? _].
  - intros k Hk. apply foldl_hash_row_other.
    by rewrite scanned_keys_FileRowFactory.
Qed.

(** C5 (as the code has it).  When the digest of a selected file that is
    still on disk cannot be computed, the turn of the loop stores NULL as its
    hash, refreshes its size and times from the stat and sets its rehash flag
    to NULL whatever it was; the turn goes on and handles every other
    selected file; the row, its hash being NULL, still satisfies the
    selection. *)
Theorem failed_digest_stores_null fs expired c k r nd :
  (k, r) ∈ select_rows 100 (files c) →
  fs (path_join k.1 k.2) = Some nd → nd_digest nd = None →
  let st' := hash_batch fs expired (get_modified c) (start c) in
  (∃ r', files (db st') !! k = Some r'
         ∧ f_sha256 r' = None ∧ f_rehash r' = None
         ∧ m_parent (f_meta r') = m_parent (f_meta r)
         ∧ m_size (f_meta r') = st_size (nd_stat nd)
         ∧ m_mtime (f_meta r') = st_mtime (nd_stat nd)
         ∧ is_modified r' = true)
  ∧ (∀ k2 r2, (k2, r2) ∈ select_rows 100 (files c) →
       files (db st') !! k2
       = rehashed_row (m_parent (f_meta r2)) <$> fs (path_join k2.1 k2.2)).
Proof.
  intros Hin Hfs Hd st'.
  destruct (hash_batch_selected fs expired (start c) eq_refl) as (Hsel & _ & _).
  split; [|exact Hsel].
  exists (rehashed_row (m_parent (f_meta r)) nd).
  unfold st'. change c with (db (start c)) at 1.
  rewrite (Hsel k r Hin), Hfs. unfold rehashed_row, is_modified. simpl.
  rewrite Hd. by split_and!.
Qed.

Lemma failed_digest_stores_null_witness :
  ∃ r', files (db (hash_batch unreadable_fs (λ _, false)
                     (get_modified flagged_file) (start flagged_file)))
          !! ("v1", "docs/a.txt") = Some r'
        ∧ f_sha256 r' = None ∧ f_rehash r' = None.
Proof.
  destruct (failed_digest_stores_null unreadable_fs (λ _, false) flagged_file
              ("v1", "docs/a.txt")
              (set_rehash (Some true) (hashed_row "docs" 10 100 "h1"))
              {| nd_islink := false; nd_stat := stat_of 10 100;
                 nd_digest := None |})
    as [(r' & Hr' & Hsha & Hrh & _) _].
  - vm_compute. by left.
  - reflexivity.
  - reflexivity.
  - exists r'. by split_and!.
Defined.

(** C5 as stated fails: the rehash flag of the selected file was TRUE and
    its hash h1; after the failed digest the flag is NULL, not its prior
    value. *)
Lemma failed_digest_clears_rehash :
  files flagged_file !! ("v1", "docs/a.txt")
    = Some (set_rehash (Some true) (hashed_row "docs" 10 100 "h1"))
  ∧ unreadable_fs "v1/docs/a.txt"
    = Some {| nd_islink := false; nd_stat := stat_of 10 100;
              nd_digest := None |}
  ∧ (∃ r', files (db (hash_batch unreadable_fs (λ _, false)
                        (get_modified flagged_file) (start flagged_file)))
             !! ("v1", "docs/a.txt") = Some r'
           ∧ f_rehash r' = None
           ∧ f_rehash r' ≠ Some true).
Proof.
  split_and!; [reflexivity|reflexivity|].
  eexists. split_and!; [by vm_compute|reflexivity|done].
Qed.

(** ** Termination of the hashing loop *)

Lemma select_rows_nonempty t k r :
  t !! k = Some r → is_modified r = true → select_rows 100 t ≠ [].
Proof.
  intros Hk Hm. rewrite select_rows_take. simpl.
  assert ((k, r) ∈ modified_sorted t) as Hin
    by (by apply elem_of_modified_sorted).
  by destruct (modified_sorted t); [inversion Hin|].
Qed.

Lemma get_modified_nonempty c k r :
  files c !! k = Some r → is_modified r = true → get_modified c ≠ [].
Proof.
  intros Hk Hm Hnil. apply fmap_nil_inv in Hnil.
  by apply (select_rows_nonempty _ _ _ Hk Hm).
Qed.

(** A file on disk whose digest cannot be computed stays selectable after
    every turn of the loop. *)
Lemma hash_batch_keeps_unreadable fs expired st k nd :
  fs (path_join k.1 k.2) = Some nd → nd_digest nd = None →
  pending st = [] →
  (∃ r, files (db st) !! k = Some r ∧ is_modified r = true) →
  let st' := hash_batch fs expired (get_modified (db st)) st in
  pending st' = []
  ∧ ∃ r', files (db st') !! k = Some r' ∧ is_modified r' = true.
Proof.
  intros Hfs Hd Hp (r & Hk & Hm) st'.
  destruct (hash_batch_selected fs expired st Hp) as (Hsel & Hoth & Hp').
  split; [done|].
  destruct (decide (k ∈ (select_rows 100 (files (db st))).*1)) as [Hin|Hout].
  - apply list_elem_of_fmap in Hin as ([k' r'] & Heq & Hin).
    simpl in Heq. subst k'.
    exists (rehashed_row (m_parent (f_meta r')) nd).
    unfold st'. rewrite (Hsel _ _ Hin), Hfs.
    split; [done|]. unfold is_modified. simpl. by rewrite Hd.
  - exists r. unfold st'. by rewrite (Hoth _ Hout).
Qed.

Lemma calc_hash_loop_unreadable fs expired k nd :
  fs (path_join k.1 k.2) = Some nd → nd_digest nd = None →
  ∀ fuel st,
    pending st = [] →
    (∃ r, files (db st) !! k = Some r ∧ is_modified r = true) →
    calc_hash_loop fuel fs expired st = None.
Proof.
  intros Hfs Hd. induction fuel as [|fuel IH]; intros st Hp Hr; [done|].
  destruct (hash_batch_keeps_unreadable fs expired st k nd Hfs Hd Hp Hr)
    as [Hp' Hr'].
  destruct Hr as (r & Hk & Hm).
  pose proof (get_modified_nonempty _ _ _ Hk Hm) as Hne.
  cbn [calc_hash_loop].
  destruct (get_modified (db st)) as [|e l] eqn:Hsel; [done|].
  by apply IH.
Qed.

(** C4 fails on the code.  If the catalog holds a file with hash NULL or
    rehash flag TRUE that is on disk and whose digest cannot be computed,
    then [calc_hash] does not return, however many turns of its loop are
    run and whatever the clock does: every turn stores a NULL hash for the
    file, which selects it again. *)
Theorem calc_hash_unreadable_never_returns fs expired c k r nd :
  files c !! k = Some r →
  f_sha256 r = None ∨ f_rehash r = Some true →
  fs (path_join k.1 k.2) = Some nd → nd_digest nd = None →
  ∀ fuel, calc_hash fuel fs expired c = None.
Proof.
  intros Hk Hm Hfs Hd fuel. unfold calc_hash.
  rewrite (calc_hash_loop_unreadable fs expired k nd Hfs Hd); [done..|].
  exists r. by rewrite is_modified_spec.
Qed.

Lemma calc_hash_unreadable_never_returns_witness :
  calc_hash 1000 unreadable_fs (λ _, false) unhashed_file = None.
Proof.
  apply (calc_hash_unreadable_never_returns unreadable_fs (λ _, false)
           unhashed_file ("v1", "docs/a.txt")
           (new_file_row (meta_of (Some "docs") 10 100))
           {| nd_islink := false; nd_stat := stat_of 10 100;
              nd_digest := None |}).
  - reflexivity.
  - by left.
  - reflexivity.
  - reflexivity.
Defined.

(** When every file found on disk can be digested, a turn of the loop on a
    non-empty selection leaves strictly fewer rows to handle. *)
Lemma hash_batch_progress fs expired st :
  (∀ p nd, fs p = Some nd → is_Some (nd_digest nd)) →
  pending st = [] → get_modified (db st) ≠ [] →
  let st' := hash_batch fs expired (get_modified (db st)) st in
  pending st' = []
  ∧ (size (to_hash (files (db st'))) < size (to_hash (files (db st))))%nat.
Proof.
  intros Hread Hp Hne st'.
  destruct (hash_batch_selected fs expired st Hp) as (Hsel & Hoth & Hp').
  split; [done|].
  assert (∀ k r, (k, r) ∈ select_rows 100 (files (db st)) →
            to_hash (files (db st')) !! k = None) as Hdone.
  { intros k r Hin. apply map_lookup_filter_None. right. intros r' Hr'.
    unfold st' in Hr'. rewrite (Hsel _ _ Hin) in Hr'. simpl.
    destruct (fs (path_join k.1 k.2)) as [nd|] eqn:Hfs; [|done].
    destruct (Hread _ _ Hfs) as [h Hh]. simpl in Hr'. simplify_eq.
    unfold is_modified, rehashed_row. simpl. by rewrite Hh. }
  apply map_subset_size, map_subset_alt. split.
  - apply map_subseteq_spec. intros k r' Hk.
    destruct (decide (k ∈ (select_rows 100 (files (db st))).*1)) as [Hin|Hout].
    + apply list_elem_of_fmap in Hin as ([k' r] & Heq & Hin).
      simpl in Heq. subst k'. by rewrite (Hdone _ _ Hin) in Hk.
    + apply map_lookup_filter_Some in Hk as [Hk Hm].
      apply map_lookup_filter_Some. split; [|done].
      unfold st' in Hk. by rewrite (Hoth _ Hout) in Hk.
  - unfold get_modified, select_files in Hne.
    destruct (select_rows 100 (files (db st))) as [|[k r] rows] eqn:Hrows;
      [done|].
    exists k. split; [apply (Hdone k r); by left|].
    assert ((k, r) ∈ select_rows 100 (files (db st))) as Hin
      by (rewrite Hrows; by left).
    apply elem_of_select_rows in Hin as [Hk Hm].
    assert (to_hash (files (db st)) !! k = Some r) as ->; [|done].
    by apply map_lookup_filter_Some.
Qed.

Lemma calc_hash_loop_returns fs expired :
  (∀ p nd, fs p = Some nd → is_Some (nd_digest nd)) →
  ∀ fuel st,
    pending st = [] →
    (size (to_hash (files (db st))) < fuel)%nat →
    is_Some (calc_hash_loop fuel fs expired st).
Proof.
  intros Hread. induction fuel as [|fuel IH]; intros st Hp Hsz; [lia|].
  cbn [calc_hash_loop].
  destruct (get_modified (db st)) as [|e l] eqn:Hsel; [done|].
  destruct (hash_batch_progress fs expired st Hread Hp) as [Hp' Hlt].
  { by rewrite Hsel. }
  rewrite Hsel in Hp', Hlt. apply IH; [done|lia].
Qed.

(** The loop is not stuck for any other reason: when the digest of every
    file found on disk can be computed, [calc_hash] returns, after at most
    one turn per row to handle and one more to see the empty selection. *)
Lemma calc_hash_returns_when_readable fs expired c :
  (∀ p nd, fs p = Some nd → is_Some (nd_digest nd)) →
  is_Some (calc_hash (S (size (to_hash (files c)))) fs expired c).
Proof.
  intros Hread. unfold calc_hash.
  destruct (calc_hash_loop_returns fs expired Hread
              (S (size (to_hash (files c)))) (start c)) as [st Hst];
    [done|simpl; lia|].
  unfold start in Hst. by rewrite Hst.
Qed.

(** ** The scenarios of the specification, and a few more runs *)

(** An empty listing returns before any statement is issued. *)
Example reconcile_empty_listing c : upsert_files_replace [] c = Committed c.
Proof. reflexivity. Qed.

(** Scenario 1, first half: the scan finds the file as stored. *)
Example scenario1_unchanged :
  upsert_files_replace [scanned_file "v1" "a.txt" "" 10 100] scenario1
  = Committed scenario1.
Proof. by vm_compute. Qed.

(** Scenario 1, second half: the scan finds another size and mtime. *)
Example scenario1_changed :
  files (after (upsert_files_replace [scanned_file "v1" "a.txt" "" 20 200]
                  scenario1) scenario1) !! ("v1", "a.txt")
  = Some {| f_meta := meta_of (Some "") 10 100; f_sha256 := Some "h1";
            f_rehash := Some true |}.
Proof. by vm_compute. Qed.

(** A file listing that proposes a new key twice is rolled back; a
    directory listing that does so keeps the first proposal. *)
Example reconcile_files_duplicate_key :
  upsert_files_replace [scanned_file "v1" "docs/n.txt" "docs" 1 100;
                        scanned_file "v1" "docs/n.txt" "docs" 2 200]
    two_volumes
  = RolledBack.
Proof. by vm_compute. Qed.

Example reconcile_dirs_duplicate_key :
  dirs (after (upsert_files_replace [scanned_dir "v1" "docs/sub" (Some "docs") 1 100;
                                     scanned_dir "v1" "docs/sub" (Some "docs") 2 200]
                 two_volumes) two_volumes) !! ("v1", "docs/sub")
  = Some (new_dir_row (meta_of (Some "docs") 1 100)).
Proof. by vm_compute. Qed.

(** A key that is in the catalog may be proposed twice as long as only the
    last proposal makes the WHERE true. *)
Example reconcile_files_duplicate_existing_key :
  files (after (upsert_files_replace [scanned_file "v1" "a.txt" "" 10 100;
                                      scanned_file "v1" "a.txt" "" 20 200]
                  scenario1) scenario1) !! ("v1", "a.txt")
  = Some {| f_meta := meta_of (Some "") 10 100; f_sha256 := Some "h1";
            f_rehash := Some true |}
  ∧ upsert_files_replace [scanned_file "v1" "a.txt" "" 20 200;
                          scanned_file "v1" "a.txt" "" 10 100] scenario1
    = RolledBack.
Proof. split; by vm_compute. Qed.

(** Scenario 2: the selected file is gone from disk; it is deleted, counted
    as skipped, and nothing is saved. *)
Example scenario2_vanished :
  get_modified unhashed_file
  = [FileRowFactory (("v1", "docs/a.txt"),
                     new_file_row (meta_of (Some "docs") 10 100))]
  ∧ calc_hash 2 (λ _, None) (λ _, false) unhashed_file
    = Some (0, {| files := ∅; dirs := ∅ |})
  ∧ skip (hash_batch (λ _, None) (λ _, false) (get_modified unhashed_file)
            (start unhashed_file)) = 1.
Proof. split_and!; by vm_compute. Qed.

(** A readable file is hashed in one turn, whatever the clock says. *)
Example calc_hash_readable :
  calc_hash 2 (one_file_fs "v1/docs/a.txt"
                 {| nd_islink := false; nd_stat := stat_of 12 300;
                    nd_digest := Some "h" |})
            (λ _, true) unhashed_file
  = Some (1, {| files := {[ ("v1", "docs/a.txt")
                            := {| f_meta := meta_of (Some "docs") 12 300;
                                  f_sha256 := Some "h"; f_rehash := None |} ]};
                dirs := ∅ |}).
Proof. by vm_compute. Qed.

(** Scenario 3: the directory of X, Y and Z counts 2. *)
Example scenario3_counts_two :
  dirs (after (update_counter scenario3) scenario3) !! ("v1", "dir1")
  = Some {| d_meta := meta_of None 4096 100; d_count := Some 2 |}.
Proof. by vm_compute. Qed.

(** Scenario 4 through the handler: the parent is the directory name of
    the destination path. *)
Example scenario4_on_moved :
  files (on_moved "v1" (FileMovedEvent "old.txt" "sub/new.txt") scenario4)
  = {[ ("v1", "sub/new.txt") := hashed_row "sub" 10 100 "h9" ]}.
Proof. by vm_compute. Qed.

(** A move onto a key that is taken violates the primary key: nothing
    changes. *)
Example on_moved_onto_existing :
  on_moved "v1" (FileMovedEvent "a" "b") three_files = three_files.
Proof. by vm_compute. Qed.

(** Modify flags a file and leaves a directory alone; a second delete and an
    event under [@eaDir] change nothing. *)
Example on_modified_file :
  files (on_modified "v1" (FileModifiedEvent "a.txt") scenario1)
    !! ("v1", "a.txt")
  = Some (set_rehash (Some true) (hashed_row "" 10 100 "h1")).
Proof. by vm_compute. Qed.

Example on_modified_dir :
  on_modified "v1" (DirModifiedEvent "docs") two_volumes = two_volumes.
Proof. by vm_compute. Qed.

Example on_deleted_twice :
  on_deleted "v1" (FileDeletedEvent "a.txt")
    (on_deleted "v1" (FileDeletedEvent "a.txt") scenario1)
  = on_deleted "v1" (FileDeletedEvent "a.txt") scenario1.
Proof. by vm_compute. Qed.

Example on_created_eaDir fs :
  on_created fs "v1" (FileCreatedEvent "docs/@eaDir/a.txt") two_volumes
  = two_volumes.
Proof. reflexivity. Qed.

(** * Further properties of the catalog operations *)

(** ** [upsert_files] *)

Lemma upsert_file_other c e c' k :
  upsert_file c e = Some c' → key_of (base e) ≠ k →
  files c' !! k = files c !! k ∧ dirs c' !! k = dirs c !! k.
Proof.
  intros H Hne. destruct e as [b sha rh|b cnt]; simpl in *;
    unfold row_values in H; destruct (stat b); simplify_eq; simpl;
    by rewrite lookup_insert_ne.
Qed.

Lemma upsert_each_other fs : ∀ c c' k,
  upsert_each fs c = Some c' → k ∉ scanned_keys fs →
  files c' !! k = files c !! k ∧ dirs c' !! k = dirs c !! k.
Proof.
  induction fs as [|e fs IH]; intros c c' k H Hk.
  - by injection H as <-.
  - cbn [upsert_each] in H.
    destruct (upsert_file c e) as [c1|] eqn:He; [|done].
    unfold scanned_keys in Hk. rewrite fmap_cons in Hk.
    apply not_elem_of_cons in Hk as [Hne Hk].
    destruct (IH _ _ _ H Hk) as [-> ->].
    by eapply upsert_file_other.
Qed.




(** X2.  A committed batch of [upsert_files] changes no row, of either
    table, whose key is not the key of an entity of the batch. *)
Theorem upsert_files_frame fs c c' k :
  upsert_files fs c = Committed c' → k ∉ scanned_keys fs →
  files c' !! k = files c !! k ∧ dirs c' !! k = dirs c !! k.
Proof.
  unfold upsert_files. intros H Hk.
  destruct (upsert_each fs c) as [c1|] eqn:Hc; [|done].
  simplify_eq. by eapply upsert_each_other.
Qed.

Lemma upsert_files_frame_witness :
  ∃ c', upsert_files [scanned_file "v1" "docs/n.txt" "docs" 1 100] two_volumes
        = Committed c'
    ∧ files c' !! ("v2", "music/b.mp3")
      = Some (hashed_row "music" 7 100 "h2")
    ∧ dirs c' !! ("v1", "docs")
      = Some {| d_meta := meta_of None 4096 100; d_count := Some 0 |}.
Proof.
  eexists. split; [reflexivity|].
  split.
  - refine (proj1 (upsert_files_frame
                     [scanned_file "v1" "docs/n.txt" "docs" 1 100] two_volumes
                     _ ("v2", "music/b.mp3") eq_refl _)).
    vm_compute. intros [Heq|Hin]%elem_of_cons; [done|inversion Hin].
  - refine (proj2 (upsert_files_frame
                     [scanned_file "v1" "docs/n.txt" "docs" 1 100] two_volumes
                     _ ("v1", "docs") eq_refl _)).
    vm_compute. intros [Heq|Hin]%elem_of_cons; [done|inversion Hin].
Defined.

Lemma upsert_each_lookup fs : ∀ c c' e k m,
  upsert_each fs c = Some c' → NoDup (scanned_keys fs) →
  e ∈ fs → row_values (base e) = Some (k, m) →
  match e with
  | File _ sha rh =>
      files c' !! k
      = Some (match files c !! k with
              | None => new_file_row m
              | Some _ => {| f_meta := m; f_sha256 := sha; f_rehash := rh |}
              end)
  | Dir _ _ =>
      dirs c' !! k
      = Some (match dirs c !! k with
              | None => new_dir_row m
              | Some r => set_d_meta m r
              end)
  end.
Proof.
  induction fs as [|e0 fs IH]; intros c c' e k m H Hnd Hin Hrv.
  - by apply elem_of_nil in Hin.
  - cbn [upsert_each] in H.
    destruct (upsert_file c e0) as [c1|] eqn:He0; [|done].
    unfold scanned_keys in Hnd. rewrite fmap_cons in Hnd.
    apply NoDup_cons in Hnd as [Hk0 Hnd].
    assert (k = key_of (base e)) as Hk.
    { unfold row_values in Hrv. destruct (stat (base e)); by simplify_eq. }
    apply elem_of_cons in Hin as [->|Hin].
    + destruct (upsert_each_other _ _ _ _ H Hk0) as [Hf Hd].
      rewrite <-Hk in Hf, Hd.
      destruct e0 as [b sha rh|b cnt]; simpl in *; rewrite Hrv in He0;
        simplify_eq; simpl in *.
      * by rewrite Hf, lookup_insert_eq.
      * by rewrite Hd, lookup_insert_eq.
    + assert (key_of (base e0) ≠ k) as Hne.
      { intros Heq. apply Hk0. rewrite Heq, Hk.
        by apply (list_elem_of_fmap_2 (λ e, key_of (base e))). }
      destruct (upsert_file_other _ _ _ _ He0 Hne) as [Hf Hd].
      specialize (IH _ _ _ _ _ H Hnd Hin Hrv).
      destruct e; by rewrite <-?Hf, <-?Hd.
Qed.

(** X3.  In a committed batch of [upsert_files] with pairwise distinct keys,
    a [File] whose key was not in [files] is inserted with hash and rehash
    flag NULL, whatever hash and flag the entity carries, and a [File] whose
    key was there has its metadata, hash and flag overwritten by the
    entity's; a [Dir] whose key was not in [dirs] is inserted with count
    NULL, and a [Dir] whose key was there has its metadata overwritten and
    keeps its count. *)
Theorem upsert_files_stores fs c c' e k m :
  upsert_files fs c = Committed c' → NoDup (scanned_keys fs) →
  e ∈ fs → row_values (base e) = Some (k, m) →
  match e with
  | File _ sha rh =>
      files c' !! k
      = Some (match files c !! k with
              | None => {| f_meta := m; f_sha256 := None; f_rehash := None |}
              | Some _ => {| f_meta := m; f_sha256 := sha; f_rehash := rh |}
              end)
  | Dir _ _ =>
      dirs c' !! k
      = Some (match dirs c !! k with
              | None => {| d_meta := m; d_count := None |}
              | Some r => {| d_meta := m; d_count := d_count r |}
              end)
  end.
Proof.
  unfold upsert_files. intros H Hnd Hin Hrv.
  destruct (upsert_each fs c) as [c1|] eqn:Hc; [|done].
  simplify_eq. by apply (upsert_each_lookup fs c c' e k m).
Qed.

(** A new file that comes with a hash is inserted without it. *)
Lemma upsert_files_stores_witness :
  ∃ c', upsert_files
          [File {| volume := "v1"; path := "docs/n.txt"; parent := Some "docs";
                   stat := Some (stat_of 1 100) |} (Some "hn") (Some false)]
          two_volumes = Committed c'
    ∧ files c' !! ("v1", "docs/n.txt")
      = Some {| f_meta := meta_of (Some "docs") 1 100; f_sha256 := None;
                f_rehash := None |}.
Proof.
  eexists. split; [reflexivity|].
  exact (upsert_files_stores
           [File {| volume := "v1"; path := "docs/n.txt";
                    parent := Some "docs"; stat := Some (stat_of 1 100) |}
                 (Some "hn") (Some false)]
           two_volumes _
           (File {| volume := "v1"; path := "docs/n.txt";
                    parent := Some "docs"; stat := Some (stat_of 1 100) |}
                 (Some "hn") (Some false))
           ("v1", "docs/n.txt") (meta_of (Some "docs") 1 100)
           eq_refl (NoDup_singleton _) (list_elem_of_here _ _) eq_refl).
Defined.

(** ** [delete_files] and [set_rehash_files] *)

Lemma keys_of_table_cons tb e fs :
  keys_of_table tb (e :: fs)
  = if decide (_table e = tb) then key_of (base e) :: keys_of_table tb fs
    else keys_of_table tb fs.
Proof.
  unfold keys_of_table. rewrite filter_cons. by case_decide.
Qed.

Lemma keys_of_table_nil tb : keys_of_table tb [] = [].
Proof. done. Qed.

Lemma keys_of_table_File b sha rh fs :
  keys_of_table files_table (File b sha rh :: fs)
  = key_of b :: keys_of_table files_table fs
  ∧ keys_of_table dirs_table (File b sha rh :: fs)
    = keys_of_table dirs_table fs.
Proof. done. Qed.

Lemma keys_of_table_Dir b cnt fs :
  keys_of_table dirs_table (Dir b cnt :: fs)
  = key_of b :: keys_of_table dirs_table fs
  ∧ keys_of_table files_table (Dir b cnt :: fs)
    = keys_of_table files_table fs.
Proof. done. Qed.

Lemma lookup_delete_cons {A} (t : gmap key A) (k k0 : key) (ks : list key) :
  (if decide (k ∈ ks) then None else delete k0 t !! k)
  = (if decide (k ∈ k0 :: ks) then None else t !! k).
Proof.
  destruct (decide (k = k0)) as [->|Hne].
  - rewrite (decide_True (P := k0 ∈ k0 :: ks)) by (by left).
    case_decide; [done|]. by rewrite lookup_delete_eq.
  - rewrite lookup_delete_ne by done.
    case_decide as H1; case_decide as H2; try done.
    + exfalso. apply H2. by right.
    + exfalso. apply elem_of_cons in H2 as [?|?]; [by subst|done].
Qed.

Lemma foldl_delete_file_lookup fs : ∀ c k,
  files (foldl delete_file c fs) !! k
  = (if decide (k ∈ keys_of_table files_table fs) then None else files c !! k)
  ∧ dirs (foldl delete_file c fs) !! k
    = (if decide (k ∈ keys_of_table dirs_table fs) then None else dirs c !! k).
Proof.
  induction fs as [|e fs IH]; intros c k.
  - rewrite !keys_of_table_nil. cbn [foldl].
    split; by rewrite decide_False by apply not_elem_of_nil.
  - cbn [foldl]. destruct (IH (delete_file c e) k) as [-> ->].
    destruct e as [b sha rh|b cnt].
    + destruct (keys_of_table_File b sha rh fs) as [-> ->].
      unfold delete_file. cbn [_table base files dirs].
      split; [apply lookup_delete_cons|done].
    + destruct (keys_of_table_Dir b cnt fs) as [-> ->].
      unfold delete_file. cbn [_table base files dirs].
      split; [done|apply lookup_delete_cons].
Qed.

(** X4.  [delete_files] always commits and removes exactly the rows named
    by the batch, each from the table of its entity's kind: a key that is
    not in the table is no error, a directory of the same key is never
    removed by deleting a file, and no other row changes. *)
Theorem delete_files_removes_exactly fs c k :
  (∃ c', delete_files fs c = Committed c')
  ∧ files (after (delete_files fs c) c) !! k
    = (if decide (k ∈ keys_of_table files_table fs) then None
       else files c !! k)
  ∧ dirs (after (delete_files fs c) c) !! k
    = (if decide (k ∈ keys_of_table dirs_table fs) then None
       else dirs c !! k).
Proof.
  split; [by eexists|]. unfold delete_files. cbn [after].
  apply foldl_delete_file_lookup.
Qed.

Lemma catalog_eq (c1 c2 : catalog) :
  (∀ k, files c1 !! k = files c2 !! k) → (∀ k, dirs c1 !! k = dirs c2 !! k) →
  c1 = c2.
Proof.
  intros Hf Hd. destruct c1, c2. simpl in *. f_equal; by apply map_eq.
Qed.

(** X5.  Deleting is idempotent: a second [delete_files] of the same batch
    leaves the catalog the first one left. *)
Theorem delete_files_twice fs c :
  after (delete_files fs (after (delete_files fs c) c))
        (after (delete_files fs c) c)
  = after (delete_files fs c) c.
Proof.
  unfold delete_files. cbn [after]. apply catalog_eq; intros k.
  - rewrite !(proj1 (foldl_delete_file_lookup fs _ k)). by case_decide.
  - rewrite !(proj2 (foldl_delete_file_lookup fs _ k)). by case_decide.
Qed.

Lemma foldl_set_rehash_file_lookup fs : ∀ c k,
  files (foldl set_rehash_file c fs) !! k
  = (if decide (k ∈ keys_of_table files_table fs)
     then set_rehash (Some true) <$> files c !! k
     else files c !! k)
  ∧ dirs (foldl set_rehash_file c fs) = dirs c.
Proof.
  induction fs as [|e fs IH]; intros c k.
  - rewrite keys_of_table_nil. cbn [foldl].
    split; [by rewrite decide_False by apply not_elem_of_nil|done].
  - cbn [foldl]. destruct (IH (set_rehash_file c e) k) as [-> ->].
    destruct e as [b sha rh|b cnt].
    + destruct (keys_of_table_File b sha rh fs) as [-> _].
      cbn [set_rehash_file files dirs]. split; [|done].
      rewrite lookup_alter.
      destruct (decide (key_of b = k)) as [->|Hne].
      * rewrite (decide_True (P := k ∈ k :: _)) by (by left).
        case_decide; [|done]. by destruct (files c !! k).
      * case_decide as H1; case_decide as H2; try done.
        -- exfalso. apply H2. by right.
        -- exfalso. apply elem_of_cons in H2 as [?|?]; [by subst|done].
    + destruct (keys_of_table_Dir b cnt fs) as [_ ->]. by split.
Qed.

(** X6.  [set_rehash_files] always commits; it sets the rehash flag of the
    rows of [files] named by a [File] of the batch and changes nothing else
    of them; it creates no row for a key that is missing, ignores the [Dir]
    entities of the batch, and leaves [dirs] alone. *)
Theorem set_rehash_files_flags_exactly fs c k :
  (∃ c', set_rehash_files fs c = Committed c')
  ∧ files (after (set_rehash_files fs c) c) !! k
    = (if decide (k ∈ keys_of_table files_table fs)
       then (λ r, {| f_meta := f_meta r; f_sha256 := f_sha256 r;
                     f_rehash := Some true |}) <$> files c !! k
       else files c !! k)
  ∧ dirs (after (set_rehash_files fs c) c) = dirs c.
Proof.
  split; [by eexists|]. unfold set_rehash_files. cbn [after].
  apply foldl_set_rehash_file_lookup.
Qed.

(** ** [rename_files] *)





(** X9.  Moving a file to a free key and back again, with the parent it had,
    restores the catalog. *)
Theorem rename_files_there_and_back a b s1 h1 s2 h2 s3 h3 s4 h4 c r :
  files c !! key_of a = Some r → files c !! key_of b = None →
  parent a = m_parent (f_meta r) →
  ∃ c1, rename_files [(File a s1 h1, File b s2 h2)] c = Committed c1
    ∧ rename_files [(File b s3 h3, File a s4 h4)] c1 = Committed c.
Proof.
  intros Ha Hb Hp.
  assert (key_of b ≠ key_of a) as Hne by (intros Heq; by rewrite Heq, Ha in Hb).
  unfold rename_files, rename_each, rename_file. cbn [_table base].
  unfold update_key. rewrite Ha, Hb, decide_False by done.
  eexists. split; [reflexivity|]. cbn [files dirs].
  rewrite lookup_insert_eq, decide_False by done.
  rewrite lookup_insert_ne, lookup_delete_eq by done.
  f_equal. destruct c as [fl dl]. simpl in *. f_equal.
  apply map_eq. intros k.
  destruct (decide (k = key_of a)) as [->|Hka].
  - rewrite lookup_insert_eq, Ha. f_equal.
    destruct r as [[pr sz ct mt at_] sh rhh]. simpl in *. by subst.
  - rewrite lookup_insert_ne by done.
    destruct (decide (k = key_of b)) as [->|Hkb].
    + by rewrite lookup_delete_eq, Hb.
    + by rewrite lookup_delete_ne, lookup_insert_ne, lookup_delete_ne.
Qed.

Lemma rename_files_there_and_back_witness :
  ∃ c1, rename_files [(File (key_only "v1" "old.txt") None None,
                       File {| volume := "v1"; path := "new.txt";
                               parent := Some "x"; stat := None |} None None)]
          scenario4 = Committed c1
    ∧ rename_files [(File (key_only "v1" "new.txt") None None,
                     File {| volume := "v1"; path := "old.txt";
                             parent := Some ""; stat := None |} None None)]
        c1 = Committed scenario4.
Proof.
  destruct (rename_files_there_and_back
              {| volume := "v1"; path := "old.txt"; parent := Some "";
                 stat := None |}
              {| volume := "v1"; path := "new.txt"; parent := Some "x";
                 stat := None |}
              None None None None None None None None scenario4
              (hashed_row "" 10 100 "h9") eq_refl eq_refl eq_refl)
    as (c1 & H1 & H2).
  exists c1. split; [exact H1|exact H2].
Defined.

(** ** [update_counter] *)

Lemma update_counter_dirs_lookup c d :
  dirs (after (update_counter c) c) !! d
  = (λ r, {| d_meta := d_meta r; d_count := Some (counts (files c) d) |})
      <$> dirs c !! d.
Proof.
  unfold update_counter. cbn [after dirs]. rewrite map_lookup_imap.
  destruct (dirs c !! d) as [r|]; [|done]. simpl. by rewrite store_count_count.
Qed.

(** X10.  The recount always commits and is idempotent: a second
    [update_counter] leaves the catalog the first one left. *)
Theorem update_counter_twice c :
  (∃ c1, update_counter c = Committed c1)
  ∧ after (update_counter (after (update_counter c) c))
          (after (update_counter c) c)
    = after (update_counter c) c.
Proof.
  split; [by eexists|]. apply catalog_eq; intros k; [done|].
  rewrite !update_counter_dirs_lookup.
  by destruct (dirs c !! k).
Qed.

(** X11.  After the recount a directory all of whose direct child files are
    unhashed or empty, in particular a directory with no file in it, has
    count 0, not NULL. *)
Theorem update_counter_zero c d r :
  dirs c !! d = Some r →
  (∀ kf f, files c !! kf = Some f → kf.1 = d.1 →
     m_parent (f_meta f) = Some d.2 →
     f_sha256 f = None ∨ m_size (f_meta f) ≤ 0) →
  dirs (after (update_counter c) c) !! d
  = Some {| d_meta := d_meta r; d_count := Some 0 |}.
Proof.
  intros Hd Hch. rewrite update_counter_dirs_lookup, Hd. simpl.
  do 2 f_equal. unfold counts.
  assert (filter (λ kr, counted (files c) d kr = true) (files c) = ∅) as ->;
    [|by rewrite map_size_empty].
  apply map_empty. intros kf. apply map_lookup_filter_None. right.
  intros f Hkf Hc. unfold counted in Hc. simpl in Hc.
  rewrite !andb_true_iff, !bool_decide_eq_true in Hc.
  destruct Hc as [[[Hv Hp] Hs] Hh].
  destruct (Hch kf f Hkf Hv Hp) as [Hn|Hz]; [by rewrite Hn in Hh|lia].
Qed.

Lemma update_counter_zero_witness :
  dirs (after (update_counter dir_with_unhashed_file) dir_with_unhashed_file)
    !! ("v1", "docs")
  = Some {| d_meta := meta_of None 4096 100; d_count := Some 0 |}.
Proof.
  apply (update_counter_zero dir_with_unhashed_file ("v1", "docs")
           {| d_meta := meta_of None 4096 100; d_count := None |} eq_refl).
  intros kf f Hkf Hv Hp.
  unfold dir_with_unhashed_file in Hkf. cbn [files] in Hkf.
  apply lookup_insert_Some in Hkf as [[<- <-]|[_ Hkf]].
  - by left.
  - apply lookup_singleton_Some in Hkf as [<- <-]. by vm_compute in Hv.
Defined.

(** ** [select_files] without a cap *)

(** X12.  With [modified] and a limit of zero or less, [select_files]
    returns every file whose hash is NULL or whose rehash flag is TRUE, and
    only those, each once. *)
Theorem select_files_unlimited limit c :
  limit ≤ 0 →
  (∀ e, e ∈ select_files true limit c ↔
     ∃ k r, e = FileRowFactory (k, r) ∧ files c !! k = Some r
            ∧ (f_sha256 r = None ∨ f_rehash r = Some true))
  ∧ NoDup (select_files true limit c).
Proof.
  intros Hlim. unfold select_files.
  rewrite select_rows_take, bool_decide_eq_false_2 by lia. split.
  - intros e. rewrite list_elem_of_fmap. split.
    + intros ([k r] & -> & Hin). exists k, r.
      apply elem_of_modified_sorted in Hin as [? ?].
      by rewrite <-is_modified_spec.
    + intros (k & r & -> & Hk & Hm). exists (k, r). split; [done|].
      apply elem_of_modified_sorted. by rewrite is_modified_spec.
  - apply (NoDup_fmap_2_strong _).
    + intros [k1 r1] [k2 r2] H1 H2 Heq.
      apply elem_of_modified_sorted in H1 as [H1 _].
      apply elem_of_modified_sorted in H2 as [H2 _].
      assert (k1 = k2) as ->.
      { destruct k1, k2. unfold FileRowFactory in Heq. simpl in Heq.
        by simplify_eq. }
      rewrite H1 in H2. by simplify_eq.
    + eapply NoDup_fmap_1, NoDup_modified_sorted.
Qed.

Lemma select_files_unlimited_witness :
  FileRowFactory (("v1", "b"), new_file_row (meta_of (Some "") 30 100))
    ∈ select_files true 0 three_files
  ∧ NoDup (select_files true 0 three_files).
Proof.
  destruct (select_files_unlimited 0 three_files (Z.le_refl 0)) as [Hin Hnd].
  split; [|exact Hnd]. apply Hin.
  exists ("v1", "b"), (new_file_row (meta_of (Some "") 30 100)).
  split_and!; [reflexivity|reflexivity|by left].
Defined.

(** ** More on [upsert_files_replace] *)

Lemma replace_table_present {R : Type} (fresh : meta → R)
    (clause : conflict_clause R) (rows : list (key * meta))
    (t t1 : gmap key R) (k : key) :
  replace_table fresh clause rows t = Some t1 →
  is_Some (t1 !! k) ↔ k ∈ rows.*1.
Proof.
  unfold replace_table. intros H.
  destruct (insert_select fresh clause rows (t, ∅)) as [[t' T']|] eqn:Hf;
    [|done].
  simplify_eq. rewrite delete_unstaged_lookup.
  pose proof (insert_select_present fresh clause rows _ _ _ _ k Hf) as Hp.
  case_decide as Hk; [|split; [by intros [? ?]|done]].
  split; [done|]. intros _. apply Hp. by right.
Qed.

(** X13.  After a committed reconcile of a non-empty listing, duplicates or
    not, the keys of the table of the reconciled kind are exactly the keys
    of the listing. *)
Theorem reconcile_keys f0 fs c c1 k :
  upsert_files_replace (f0 :: fs) c = Committed c1 →
  match _table f0 with
  | files_table => is_Some (files c1 !! k) ↔ k ∈ scanned_keys (f0 :: fs)
  | dirs_table => is_Some (dirs c1 !! k) ↔ k ∈ scanned_keys (f0 :: fs)
  end.
Proof.
  intros H. destruct f0 as [b sha rh|b cnt]; cbn [_table].
  - apply upsert_files_replace_files in H as (rows & Hrows & Ht & _).
    rewrite <-(copy_files_exist_keys _ _ Hrows).
    by eapply replace_table_present.
  - apply upsert_files_replace_dirs in H as (rows & Hrows & Ht & _).
    rewrite <-(copy_files_exist_keys _ _ Hrows).
    by eapply replace_table_present.
Qed.

Lemma reconcile_keys_witness :
  ∃ c1, upsert_files_replace scan_of_v1 two_volumes = Committed c1
    ∧ (is_Some (files c1 !! ("v1", "docs/a.txt"))
       ↔ ("v1", "docs/a.txt") ∈ scanned_keys scan_of_v1).
Proof.
  eexists. split; [reflexivity|].
  exact (reconcile_keys (scanned_file "v1" "docs/a.txt" "docs" 10 100) []
           two_volumes _ ("v1", "docs/a.txt") eq_refl).
Defined.



Section DoUpdateTwice.
Context {R : Type}.
Variable fresh : meta → R.
Variable upd : R → meta → option R.

(** Once a key is touched and proposed again, the command raises. *)
Lemma insert_select_touched_again rows : ∀ (t : gmap key R) T k,
  k ∈ T → is_Some (t !! k) → k ∈ rows.*1 →
  insert_select fresh (DoUpdate upd) rows (t, T) = None.
Proof.
  induction rows as [|[k0 ex] rows IH]; intros t T k HT Hk Hin.
  - by apply elem_of_nil in Hin.
  - rewrite fmap_cons in Hin. simpl in Hin.
    destruct (insert_on_conflict fresh (DoUpdate upd) (t, T) (k0, ex))
      as [[t1 T1]|] eqn:Hs; cbn [insert_select]; rewrite Hs; [|done].
    destruct (decide (k = k0)) as [->|Hne].
    + unfold insert_on_conflict in Hs. destruct Hk as [r Hk].
      rewrite Hk in Hs. by rewrite decide_True in Hs.
    + apply elem_of_cons in Hin as [?|Hin]; [done|].
      apply (IH _ _ k); [|by rewrite (insert_on_conflict_other _ _ _ _ _ _ _ _ _ Hs Hne)|done].
      by apply (insert_on_conflict_touched _ _ _ _ _ _ _ _ Hs).
Qed.

Lemma insert_select_new_key_twice l1 : ∀ l2 l3 (t : gmap key R) T k ex1 ex2,
  t !! k = None → k ∉ l1.*1 →
  insert_select fresh (DoUpdate upd)
    (l1 ++ (k, ex1) :: l2 ++ (k, ex2) :: l3) (t, T) = None.
Proof.
  induction l1 as [|[k0 ex] l1 IH]; intros l2 l3 t T k ex1 ex2 Hk Hl1.
  - rewrite app_nil_l. cbn [insert_select]. unfold insert_on_conflict.
    rewrite Hk. apply (insert_select_touched_again _ _ _ k).
    + set_solver.
    + by rewrite lookup_insert_eq.
    + rewrite fmap_app, fmap_cons. set_solver.
  - rewrite fmap_cons in Hl1. apply not_elem_of_cons in Hl1 as [Hne Hl1].
    rewrite <-app_comm_cons.
    destruct (insert_on_conflict fresh (DoUpdate upd) (t, T) (k0, ex))
      as [[t1 T1]|] eqn:Hs; cbn [insert_select]; rewrite Hs; [|done].
    apply IH; [|done].
    by rewrite (insert_on_conflict_other _ _ _ _ _ _ _ _ _ Hs Hne).
Qed.
End DoUpdateTwice.

Lemma list_twice_split {A} `{EqDecision A} (l : list A) (x : A) i j :
  Nat.lt i j → l !! i = Some x → l !! j = Some x →
  ∃ l1 l2 l3, (x ∉ l1) ∧ l = l1 ++ x :: l2 ++ x :: l3.
Proof.
  revert i j. induction l as [|y l IH]; intros i j Hij Hi Hj; [done|].
  destruct (decide (y = x)) as [->|Hne].
  - destruct j as [|j]; [unfold Nat.lt in *; lia|]. simpl in Hj.
    apply list_elem_of_lookup_2, list_elem_of_split in Hj as (l2 & l3 & ->).
    exists [], l2, l3. split; [apply not_elem_of_nil|done].
  - destruct i as [|i]; [simpl in Hi; by simplify_eq|].
    destruct j as [|j]; [unfold Nat.lt in *; lia|]. simpl in Hi, Hj.
    destruct (IH i j) as (l1 & l2 & l3 & Hx & ->);
      [unfold Nat.lt in *; lia|done..|].
    exists (y :: l1), l2, l3. split; [|done].
    apply not_elem_of_cons. by split.
Qed.

(** X15.  A file listing that names twice a key that is not in [files] is
    rolled back: the second proposal meets the row the first one inserted. *)
Theorem reconcile_files_new_key_twice b sha rh fs c k i j :
  files c !! k = None → i ≠ j →
  scanned_keys (File b sha rh :: fs) !! i = Some k →
  scanned_keys (File b sha rh :: fs) !! j = Some k →
  upsert_files_replace (File b sha rh :: fs) c = RolledBack.
Proof.
  intros Hk Hij Hi Hj. unfold upsert_files_replace.
  destruct (copy_files_exist (File b sha rh :: fs)) as [rows|] eqn:Hrows;
    [|done].
  cbn [_table]. unfold replace_table.
  assert (insert_select new_file_row files_clause rows (files c, ∅) = None)
    as ->; [|done].
  pose proof (copy_files_exist_keys _ _ Hrows) as Hkeys.
  rewrite <-Hkeys in Hi, Hj.
  assert (∃ l1 l2 l3, (k ∉ l1) ∧ rows.*1 = l1 ++ k :: l2 ++ k :: l3)
    as (l1 & l2 & l3 & Hl1 & Hsplit).
  { destruct (decide (Nat.lt i j)).
    - by eapply (list_twice_split _ _ i j).
    - eapply (list_twice_split _ _ j i); [unfold Nat.lt in *; lia|done..]. }
  apply fmap_app_inv in Hsplit as (r1 & rest & -> & Hrest & ->).
  symmetry in Hrest.
  apply fmap_cons_inv in Hrest as ([k1 ex1] & rest2 & Hk1 & Hrest & ->).
  symmetry in Hrest.
  apply fmap_app_inv in Hrest as (r2 & rest3 & -> & Hrest & ->).
  symmetry in Hrest.
  apply fmap_cons_inv in Hrest as ([k2 ex2] & r3 & Hk2 & -> & ->).
  simpl in Hk1, Hk2. subst k1 k2.
  by apply insert_select_new_key_twice.
Qed.

Lemma reconcile_files_new_key_twice_witness :
  upsert_files_replace [scanned_file "v1" "docs/n.txt" "docs" 1 100;
                        scanned_file "v1" "docs/a.txt" "docs" 10 100;
                        scanned_file "v1" "docs/n.txt" "docs" 1 100]
    two_volumes
  = RolledBack.
Proof.
  apply (reconcile_files_new_key_twice _ _ _ _ two_volumes
           ("v1", "docs/n.txt") 0 2); [reflexivity|lia|reflexivity..].
Defined.




(** * Further properties of [calc_hash] *)

(** X17.  When the digest of every file found on disk can be computed,
    [calc_hash] returns: one turn of its loop for each row to hash, and one
    more to see the empty selection, always suffice. *)
Theorem calc_hash_terminates fs expired c fuel :
  (∀ p nd, fs p = Some nd → is_Some (nd_digest nd)) →
  Nat.lt (size (to_hash (files c))) fuel →
  is_Some (calc_hash fuel fs expired c).
Proof.
  intros Hread Hfuel. unfold calc_hash.
  destruct (calc_hash_loop_returns fs expired Hread fuel (start c))
    as [st Hst]; [done|exact Hfuel|].
  unfold start in Hst. by rewrite Hst.
Qed.

Lemma calc_hash_terminates_witness :
  is_Some (calc_hash 2
             (one_file_fs "v1/docs/a.txt"
                {| nd_islink := false; nd_stat := stat_of 12 300;
                   nd_digest := Some "h" |})
             (λ _, true) unhashed_file).
Proof.
  apply calc_hash_terminates.
  - intros p nd. unfold one_file_fs. case_decide; [|done].
    intros [= <-]. by eexists.
  - vm_compute. lia.
Defined.

(** ** What a turn of the loop does to [dirs] and to the counters *)

Lemma same_dirs_meta_refl d : same_dirs_meta d d.
Proof. done. Qed.

Lemma same_dirs_meta_trans d1 d2 d3 :
  same_dirs_meta d1 d2 → same_dirs_meta d2 d3 → same_dirs_meta d1 d3.
Proof. intros H1 H2 k. by rewrite H1. Qed.

Lemma same_dirs_meta_sym d1 d2 : same_dirs_meta d1 d2 → same_dirs_meta d2 d1.
Proof. intros H k. by rewrite H. Qed.

Lemma update_counter_same_dirs_meta c :
  same_dirs_meta (dirs (after (update_counter c) c)) (dirs c).
Proof.
  intros k. rewrite update_counter_dirs_lookup. by destruct (dirs c !! k).
Qed.

Lemma set_updated_same_dirs_meta p c :
  Forall file_with_stat p →
  same_dirs_meta (dirs (after (set_updated p c) c)) (dirs c).
Proof.
  intros Hp. destruct p as [|e p]; [apply update_counter_same_dirs_meta|].
  cbn [set_updated]. unfold upsert_files.
  destruct (upsert_each_files (e :: p) c Hp) as (c' & -> & _ & Hd).
  cbn [after]. by rewrite Hd.
Qed.

Lemma flush_counters st :
  Forall file_with_stat (pending st) →
  hashed (flush st) = hashed st ∧ skip (flush st) = skip st
  ∧ unsaved (flush st) = unsaved st
  ∧ same_dirs_meta (dirs (db (flush st))) (dirs (db st)).
Proof.
  intros Hp. unfold flush, unsaved. cbn [hashed skip saved pending db length].
  split_and!; [done|done|lia|by apply set_updated_same_dirs_meta].
Qed.

Section HashCounters.
Variable fs : filesystem.
Variable expired : Z → bool.

Lemma hash_file_counters st b sha rh :
  Forall file_with_stat (pending st) →
  let st' := hash_file fs expired st (File b sha rh) in
  let n := Z.of_nat (length (on_disk fs [File b sha rh])) in
  Forall file_with_stat (pending st')
  ∧ hashed st' = hashed st + n
  ∧ skip st' = skip st + (1 - n)
  ∧ unsaved st' = unsaved st
  ∧ same_dirs_meta (dirs (db st')) (dirs (db st)).
Proof.
  intros Hp. unfold hash_file, on_disk. rewrite filter_cons, filter_nil.
  cbn [base].
  destruct (fs (path_join (volume b) (path b))) as [nd|] eqn:Hfs.
  - rewrite decide_True by (by eexists).
    set (e := rehashed _ _ _).
    set (st1 := {| db := db st; pending := pending st ++ [e];
                   hashed := hashed st + 1; saved := saved st;
                   skip := skip st |}).
    assert (Forall file_with_stat (pending st1)) as Hp1.
    { apply Forall_app. split; [done|]. apply Forall_singleton.
      simpl. by eexists. }
    assert (unsaved st1 = unsaved st) as Hu1.
    { unfold unsaved, st1. cbn [hashed saved pending].
      rewrite length_app. simpl. lia. }
    destruct (expired _).
    + destruct (flush_counters st1 Hp1) as (Hh & Hs & Hu & Hd).
      split_and!; [by apply Forall_nil|rewrite Hh; simpl; lia
                  |rewrite Hs; simpl; lia|by rewrite Hu|done].
    + split_and!; [done|simpl; lia|simpl; lia|done|done].
  - rewrite decide_False by (by intros [? ?]).
    set (st1 := {| db := after (set_deleted [File b sha rh] (db st)) (db st);
                   pending := pending st; hashed := hashed st;
                   saved := saved st; skip := skip st + 1 |}).
    assert (same_dirs_meta (dirs (db st1)) (dirs (db st))) as Hd1 by done.
    destruct (expired _).
    + destruct (flush_counters st1 Hp) as (Hh & Hs & Hu & Hd).
      split_and!; [by apply Forall_nil|rewrite Hh; simpl; lia
                  |rewrite Hs; simpl; lia|by rewrite Hu|].
      by eapply same_dirs_meta_trans.
    + split_and!; [done|simpl; lia|simpl; lia|done|done].
Qed.

Lemma hash_fold_counters l : ∀ st,
  Forall file_with_stat (pending st) → Forall file_with_stat l →
  let st' := foldl (hash_file fs expired) st l in
  let n := Z.of_nat (length (on_disk fs l)) in
  Forall file_with_stat (pending st')
  ∧ hashed st' = hashed st + n
  ∧ skip st' = skip st + (Z.of_nat (length l) - n)
  ∧ unsaved st' = unsaved st
  ∧ same_dirs_meta (dirs (db st')) (dirs (db st)).
Proof.
  induction l as [|e l IH]; intros st Hp Hl.
  - simpl. split_and!; [done|lia|lia|done|done].
  - apply Forall_cons in Hl as [He Hl].
    destruct e as [b sha rh|]; [|done].
    destruct (hash_file_counters st b sha rh Hp) as (Hp1 & Hh1 & Hs1 & Hu1 & Hd1).
    destruct (IH _ Hp1 Hl) as (Hp2 & Hh2 & Hs2 & Hu2 & Hd2).
    cbn [foldl]. cbv zeta in *.
    assert (length (on_disk fs (File b sha rh :: l))
            = (length (on_disk fs [File b sha rh]) + length (on_disk fs l))%nat)
      as Hlen.
    { unfold on_disk. rewrite !filter_cons, filter_nil.
      case_decide; simpl; lia. }
    split_and!; [done|rewrite Hh2, Hh1, Hlen; lia
                |rewrite Hs2, Hs1, Hlen; simpl length; lia
                |by rewrite Hu2|by eapply same_dirs_meta_trans].
Qed.

(** A turn that starts with nothing pending counts as hashed, and saves, the
    selected files found on disk, counts the others as skipped, and changes
    [dirs] in its counts only; none of this depends on the clock. *)
Lemma hash_batch_counters l st :
  pending st = [] → Forall file_with_stat l →
  let st' := hash_batch fs expired l st in
  let n := Z.of_nat (length (on_disk fs l)) in
  hashed st' = hashed st + n
  ∧ skip st' = skip st + (Z.of_nat (length l) - n)
  ∧ saved st' = saved st + n
  ∧ same_dirs_meta (dirs (db st')) (dirs (db st)).
Proof.
  intros Hp Hl.
  destruct (hash_fold_counters l st) as (Hp1 & Hh1 & Hs1 & Hu1 & Hd1);
    [by rewrite Hp|done|].
  destruct (flush_counters _ Hp1) as (Hh2 & Hs2 & Hu2 & Hd2).
  unfold hash_batch. cbv zeta in *.
  split_and!; [by rewrite Hh2|by rewrite Hs2| |by eapply same_dirs_meta_trans].
  rewrite Hu1 in Hu2. unfold unsaved in Hu2. rewrite Hp in Hu2.
  rewrite Hh2, Hh1 in Hu2. cbn [flush pending length] in Hu2. lia.
Qed.
End HashCounters.

(** ** The clock does not matter *)

Lemma hash_batch_same_turn fs e1 e2 st1 st2 :
  same_turn st1 st2 →
  same_turn (hash_batch fs e1 (get_modified (db st1)) st1)
            (hash_batch fs e2 (get_modified (db st2)) st2).
Proof.
  intros (Hp1 & Hp2 & Hf & Hd & Hh & Hsv & Hsk).
  assert (get_modified (db st2) = get_modified (db st1)) as ->.
  { unfold get_modified, select_files. by rewrite Hf. }
  set (l := get_modified (db st1)).
  assert (Forall file_with_stat l) as Hl
    by apply Forall_file_with_stat_FileRowFactory.
  assert (NoDup (scanned_keys l)) as Hnd.
  { unfold l, get_modified, select_files.
    rewrite scanned_keys_FileRowFactory. apply NoDup_select_rows. }
  destruct (hash_batch_files fs e1 l st1 Hp1 Hl Hnd) as [Hf1 Hq1].
  destruct (hash_batch_files fs e2 l st2 Hp2 Hl Hnd) as [Hf2 Hq2].
  destruct (hash_batch_counters fs e1 l st1 Hp1 Hl) as (Hh1 & Hs1 & Hv1 & Hd1).
  destruct (hash_batch_counters fs e2 l st2 Hp2 Hl) as (Hh2 & Hs2 & Hv2 & Hd2).
  cbv zeta in *.
  split_and!; [done|done|by rewrite Hf1, Hf2, Hf| |lia|lia|lia].
  eapply same_dirs_meta_trans; [exact Hd1|].
  eapply same_dirs_meta_trans; [exact Hd|].
  by apply same_dirs_meta_sym.
Qed.

Lemma calc_hash_loop_same_turn fs e1 e2 fuel : ∀ st1 st2,
  same_turn st1 st2 →
  match calc_hash_loop fuel fs e1 st1, calc_hash_loop fuel fs e2 st2 with
  | Some st1', Some st2' => same_turn st1' st2'
  | None, None => True
  | _, _ => False
  end.
Proof.
  induction fuel as [|fuel IH]; intros st1 st2 Hst; [done|].
  cbn [calc_hash_loop].
  pose proof (hash_batch_same_turn fs e1 e2 st1 st2 Hst) as Hnext.
  assert (get_modified (db st2) = get_modified (db st1)) as Heq.
  { destruct Hst as (_ & _ & Hf & _).
    unfold get_modified, select_files. by rewrite Hf. }
  rewrite Heq in *.
  destruct (get_modified (db st1)) as [|e l]; [done|].
  by apply IH.
Qed.

Lemma update_counter_same_turn c1 c2 :
  files c1 = files c2 → same_dirs_meta (dirs c1) (dirs c2) →
  after (update_counter c1) c1 = after (update_counter c2) c2.
Proof.
  intros Hf Hd. apply catalog_eq; intros k; [by simpl; rewrite Hf|].
  rewrite !update_counter_dirs_lookup, Hf.
  specialize (Hd k).
  destruct (dirs c1 !! k) as [r1|], (dirs c2 !! k) as [r2|];
    simpl in *; simplify_eq; [|done]. by rewrite Hd.
Qed.

(** X18.  Neither the count [calc_hash] returns nor the catalog it leaves
    depends on when the six-second flushes fall: two runs with the same fuel
    that differ in the clock alone give the same result. *)
Theorem calc_hash_clock_independent fuel fs e1 e2 c :
  calc_hash fuel fs e1 c = calc_hash fuel fs e2 c.
Proof.
  unfold calc_hash.
  pose proof (calc_hash_loop_same_turn fs e1 e2 fuel (start c) (start c))
    as Hsame.
  unfold start in Hsame.
  destruct (calc_hash_loop fuel fs e1 _) as [st1|],
           (calc_hash_loop fuel fs e2 _) as [st2|];
    try done; try (by exfalso; apply Hsame; repeat split).
  destruct Hsame as (_ & _ & Hf & Hd & _ & Hsv & _); [by repeat split|].
  f_equal. f_equal; [done|]. by apply update_counter_same_turn.
Qed.

(** ** What [calc_hash] leaves when it returns *)

Lemma get_modified_empty c k r :
  get_modified c = [] → files c !! k = Some r → is_modified r = false.
Proof.
  intros Hnil Hk. destruct (is_modified r) eqn:Hm; [|done].
  by destruct (get_modified_nonempty c k r Hk Hm).
Qed.

Lemma hash_batch_on_the_way fs expired t0 st :
  pending st = [] → on_the_way fs t0 (files (db st)) →
  on_the_way fs t0
    (files (db (hash_batch fs expired (get_modified (db st)) st))).
Proof.
  intros Hp Hinv k.
  destruct (hash_batch_selected fs expired st Hp) as (Hsel & Hoth & _).
  destruct (decide (k ∈ (select_rows 100 (files (db st))).*1)) as [Hin|Hout].
  2: { rewrite (Hoth _ Hout). apply Hinv. }
  apply list_elem_of_fmap in Hin as ([k' r'] & Heq & Hin).
  simpl in Heq. subst k'. rewrite (Hsel _ _ Hin).
  apply elem_of_select_rows in Hin as [Hk Hm].
  right. destruct (Hinv k) as [Heq|(r & Hr & Hmr & Heq)].
  - exists r'. by rewrite <-Heq.
  - exists r. split_and!; [done..|].
    rewrite Hk in Heq.
    destruct (fs (path_join k.1 k.2)) as [nd|]; [|done].
    simpl in Heq. by simplify_eq.
Qed.

Lemma calc_hash_loop_on_the_way fs expired t0 fuel : ∀ st st',
  calc_hash_loop fuel fs expired st = Some st' →
  pending st = [] → on_the_way fs t0 (files (db st)) →
  get_modified (db st') = []
  ∧ on_the_way fs t0 (files (db st'))
  ∧ same_dirs_meta (dirs (db st')) (dirs (db st))
  ∧ saved st' - saved st = hashed st' - hashed st.
Proof.
  induction fuel as [|fuel IH]; intros st st' H Hp Hinv; [done|].
  cbn [calc_hash_loop] in H.
  destruct (get_modified (db st)) as [|e l] eqn:Hsel.
  { simplify_eq. split_and!; [done|done|done|lia]. }
  rewrite <-Hsel in H.
  assert (Forall file_with_stat (get_modified (db st))) as Hl
    by apply Forall_file_with_stat_FileRowFactory.
  destruct (hash_batch_counters fs expired _ st Hp Hl) as (Hh & _ & Hsv & Hd).
  destruct (IH _ _ H) as (Hnil & Hinv' & Hd' & Hcnt).
  - by destruct (hash_batch_selected fs expired st Hp) as (_ & _ & ?).
  - by apply hash_batch_on_the_way.
  - cbv zeta in *. split_and!; [done|done|by eapply same_dirs_meta_trans|lia].
Qed.

Lemma on_the_way_done fs t0 t :
  on_the_way fs t0 t → (∀ k r, t !! k = Some r → is_modified r = false) →
  t = hashed_table fs t0.
Proof.
  intros Hinv Hdone. apply map_eq. intros k.
  unfold hashed_table. rewrite map_lookup_imap.
  destruct (Hinv k) as [Heq|(r & Hr & Hm & Heq)].
  - rewrite Heq. destruct (t0 !! k) as [r|] eqn:Hr; [|done]. simpl.
    by rewrite (Hdone k r Heq).
  - rewrite Hr. simpl. by rewrite Hm.
Qed.

(** X19.  When [calc_hash] returns, the catalog it leaves is this one: every
    file row that had a NULL hash or the rehash flag is gone if the file is
    not on disk, and otherwise carries the size, the times and the digest
    found on disk and no flag; every other file row is as it was; the
    directory rows carry the counts of a recount over these files; and no
    row is left to hash. *)
Theorem calc_hash_result fuel fs expired c n c' :
  calc_hash fuel fs expired c = Some (n, c') →
  c' = after (update_counter {| files := hashed_table fs (files c);
                                dirs := dirs c |})
             {| files := hashed_table fs (files c); dirs := dirs c |}
  ∧ get_modified c' = [].
Proof.
  unfold calc_hash. intros H.
  destruct (calc_hash_loop fuel fs expired _) as [st|] eqn:Hloop; [|done].
  simplify_eq.
  destruct (calc_hash_loop_on_the_way fs expired (files c) _ _ _ Hloop)
    as (Hnil & Hinv & Hd & _); [done|by left|].
  assert (files (db st) = hashed_table fs (files c)) as Hf.
  { apply on_the_way_done; [done|]. intros k r. by apply get_modified_empty. }
  split.
  - by apply update_counter_same_turn.
  - unfold get_modified, select_files in *. by cbn [set_updated after update_counter files].
Qed.

Lemma calc_hash_result_witness :
  ∃ n c',
    calc_hash 2 (one_file_fs "v1/docs/a.txt"
                   {| nd_islink := false; nd_stat := stat_of 12 300;
                      nd_digest := Some "h" |})
              (λ _, true) dir_with_unhashed_file = Some (n, c')
    ∧ files c' !! ("v1", "docs/a.txt")
      = Some {| f_meta := meta_of (Some "docs") 12 300; f_sha256 := Some "h";
                f_rehash := None |}
    ∧ files c' !! ("v2", "music/b.mp3") = Some (hashed_row "music" 7 100 "h2")
    ∧ get_modified c' = [].
Proof.
  eexists _, _. split; [by vm_compute|].
  destruct (calc_hash_result 2
              (one_file_fs "v1/docs/a.txt"
                 {| nd_islink := false; nd_stat := stat_of 12 300;
                    nd_digest := Some "h" |})
              (λ _, true) dir_with_unhashed_file _ _ eq_refl) as [Hc Hnil].
  split_and!; [by vm_compute|by vm_compute|exact Hnil].
Defined.

(** ** What [calc_hash] returns *)

Section Counting.
Context {A : Type}.
Variable D : key * A → Prop.
Context `{!∀ x, Decision (D x)}.

(** The rows of a map that satisfy [D]: those among chosen rows, and the
    others. *)
Lemma size_filter_split (rows : list (key * A)) : ∀ m : gmap key A,
  NoDup rows.*1 → (∀ k r, (k, r) ∈ rows → m !! k = Some r) →
  size (filter D m)
  = (length (filter D rows)
     + size (filter D (filter (λ kr, kr.1 ∉ rows.*1) m)))%nat.
Proof.
  induction rows as [|[k r] rows IH]; intros m Hnd Hin.
  - rewrite filter_nil. simpl. f_equal. f_equal. symmetry.
    apply map_filter_id. intros ? ? _. apply not_elem_of_nil.
  - rewrite fmap_cons in Hnd. apply NoDup_cons in Hnd as [Hk Hnd].
    assert (m !! k = Some r) as Hm by (apply Hin; by left).
    assert (filter (λ kr, kr.1 ∉ ((k, r) :: rows).*1) m
            = filter (λ kr, kr.1 ∉ rows.*1) (delete k m)) as ->.
    { apply map_eq. intros j. apply option_eq. intros y.
      rewrite !map_lookup_filter_Some, lookup_delete_Some, fmap_cons,
        not_elem_of_cons. simpl. intuition congruence. }
    assert (size (filter D (delete k m))
            = (length (filter D rows)
               + size (filter D (filter (λ kr, kr.1 ∉ rows.*1) (delete k m))))%nat)
      as Hrest.
    { apply IH; [done|]. intros k' r' Hin'. rewrite lookup_delete_ne.
      - apply Hin. by right.
      - intros <-. apply Hk. apply list_elem_of_fmap. by exists (k, r'). }
    rewrite filter_cons.
    rewrite <-(insert_id m k r Hm) at 1. rewrite <-insert_delete_eq.
    rewrite map_filter_insert.
    case_decide.
    + rewrite map_size_insert_None; [simpl length; lia|].
      apply map_lookup_filter_None. left. by rewrite lookup_delete_eq.
    + by rewrite delete_delete_eq.
Qed.
End Counting.

Lemma calc_hash_loop_readable fs expired fuel st st' k r nd :
  calc_hash_loop fuel fs expired st = Some st' → pending st = [] →
  files (db st) !! k = Some r → is_modified r = true →
  fs (path_join k.1 k.2) = Some nd → is_Some (nd_digest nd).
Proof.
  intros Hloop Hp Hk Hm Hfs.
  destruct (nd_digest nd) as [h|] eqn:Hd; [by eexists|].
  rewrite (calc_hash_loop_unreadable fs expired k nd Hfs Hd fuel st Hp)
    in Hloop; [done|by exists r].
Qed.

Lemma to_hash_empty c : get_modified c = [] → to_hash (files c) = ∅.
Proof.
  intros Hnil. apply map_empty. intros k.
  apply map_lookup_filter_None. right. intros r Hk. simpl.
  by rewrite (get_modified_empty c k r Hnil Hk).
Qed.

Lemma length_on_disk_FileRowFactory fs (rows : list (key * file_row)) :
  length (on_disk fs (FileRowFactory <$> rows))
  = length (filter (λ kr : key * file_row,
                      is_Some (fs (path_join kr.1.1 kr.1.2))) rows).
Proof.
  unfold on_disk. induction rows as [|[[v p] r] rows IH]; [done|].
  rewrite fmap_cons, !filter_cons. simpl.
  repeat case_decide; simpl; try done; by rewrite IH.
Qed.

(** A turn of a loop that will return hashes the selected rows found on
    disk; the rows it leaves to hash are those it did not select. *)
Lemma hash_batch_to_hash_on_disk fs expired st :
  pending st = [] →
  (∀ k r nd, files (db st) !! k = Some r → is_modified r = true →
     fs (path_join k.1 k.2) = Some nd → is_Some (nd_digest nd)) →
  to_hash_on_disk fs (files (db st))
  = (length (on_disk fs (get_modified (db st)))
     + to_hash_on_disk fs
         (files (db (hash_batch fs expired (get_modified (db st)) st))))%nat.
Proof.
  intros Hp Hread.
  destruct (hash_batch_selected fs expired st Hp) as (Hsel & Hoth & _).
  set (rows := select_rows 100 (files (db st))) in *.
  unfold to_hash_on_disk.
  rewrite (size_filter_split _ rows (to_hash (files (db st)))).
  - assert (length (on_disk fs (get_modified (db st)))
            = length (filter (λ kr : key * file_row,
                                is_Some (fs (path_join kr.1.1 kr.1.2))) rows))
      as -> by apply length_on_disk_FileRowFactory.
    f_equal. f_equal. f_equal.
    apply map_eq. intros k. apply option_eq. intros y.
    unfold to_hash. rewrite !map_lookup_filter_Some. cbn [fst snd].
    destruct (decide (k ∈ rows.*1)) as [Hin|Hout].
    + split; [by intros [_ ?]|]. intros [Hk Hm]. exfalso.
      apply list_elem_of_fmap in Hin as ([k' r] & Heq & Hin).
      simpl in Heq. subst k'. rewrite (Hsel _ _ Hin) in Hk.
      apply elem_of_select_rows in Hin as [Hr Hmr].
      destruct (fs (path_join k.1 k.2)) as [nd|] eqn:Hfs; [|done].
      destruct (Hread k r nd Hr Hmr Hfs) as [h Hh].
      simpl in Hk. simplify_eq. unfold is_modified, rehashed_row in Hm.
      simpl in Hm. by rewrite Hh in Hm.
    + rewrite (Hoth _ Hout). tauto.
  - apply NoDup_select_rows.
  - intros k r Hin. apply elem_of_select_rows in Hin as [? ?].
    by apply map_lookup_filter_Some.
Qed.

Lemma calc_hash_loop_hashed fs expired fuel : ∀ st st',
  calc_hash_loop fuel fs expired st = Some st' → pending st = [] →
  hashed st' = hashed st + Z.of_nat (to_hash_on_disk fs (files (db st))).
Proof.
  induction fuel as [|fuel IH]; intros st st' Hloop Hp; [done|].
  pose proof (λ k r nd,
                calc_hash_loop_readable fs expired (S fuel) st st' k r nd
                  Hloop Hp) as Hread.
  cbn [calc_hash_loop] in Hloop.
  destruct (get_modified (db st)) as [|e l] eqn:Hsel.
  { simplify_eq. unfold to_hash_on_disk.
    rewrite (to_hash_empty _ Hsel), map_filter_empty, map_size_empty. lia. }
  rewrite <-Hsel in Hloop.
  assert (Forall file_with_stat (get_modified (db st))) as Hl
    by apply Forall_file_with_stat_FileRowFactory.
  destruct (hash_batch_counters fs expired _ st Hp Hl) as (Hh & _).
  destruct (hash_batch_selected fs expired st Hp) as (_ & _ & Hp').
  rewrite (IH _ _ Hloop Hp'), Hh.
  rewrite (hash_batch_to_hash_on_disk fs expired st Hp Hread). lia.
Qed.

(** X20.  When [calc_hash] returns, the number it returns is the number of
    file rows that had a NULL hash or the rehash flag and whose file is on
    disk: each of them has been hashed and saved once. *)
Theorem calc_hash_count fuel fs expired c n c' :
  calc_hash fuel fs expired c = Some (n, c') →
  n = Z.of_nat (to_hash_on_disk fs (files c)).
Proof.
  unfold calc_hash. intros H.
  destruct (calc_hash_loop fuel fs expired _) as [st|] eqn:Hloop; [|done].
  simplify_eq.
  destruct (calc_hash_loop_on_the_way fs expired (files c) _ _ _ Hloop)
    as (_ & _ & _ & Hsv); [done|by left|].
  pose proof (calc_hash_loop_hashed fs expired _ _ _ Hloop eq_refl) as Hh.
  simpl in *. lia.
Qed.

Lemma calc_hash_count_witness :
  ∃ c',
    calc_hash 2 (one_file_fs "v1/docs/a.txt"
                   {| nd_islink := false; nd_stat := stat_of 12 300;
                      nd_digest := Some "h" |})
              (λ _, true) dir_with_unhashed_file = Some (1, c')
    ∧ 1 = Z.of_nat (to_hash_on_disk
                      (one_file_fs "v1/docs/a.txt"
                         {| nd_islink := false; nd_stat := stat_of 12 300;
                            nd_digest := Some "h" |})
                      (files dir_with_unhashed_file)).
Proof.
  eexists. split; [by vm_compute|].
  eapply (calc_hash_count 2 _ (λ _, true) dir_with_unhashed_file 1).
  by vm_compute.
Defined.

(** * Further properties of the watch handlers *)

Lemma update_key_twice {R : Type} (reparent : option string → R → R)
    (src dst : key) (p : option string) (t t1 : gmap key R) :
  (∀ r, reparent p (reparent p r) = reparent p r) →
  update_key reparent src dst p t = Some t1 →
  update_key reparent src dst p t1 = Some t1.
Proof.
  intros Hre. unfold update_key.
  destruct (t !! src) as [r|] eqn:Hs.
  - destruct (decide (dst = src)) as [->|Hne].
    + intros [= <-]. rewrite lookup_insert_eq.
      by rewrite Hre, insert_insert_eq.
    + destruct (t !! dst) eqn:Hd; [done|]. intros [= <-].
      by rewrite lookup_insert_ne, lookup_delete_eq.
  - intros [= <-]. by rewrite Hs.
Qed.

(** X21.  Every handler tolerates a repeated notification: handling the same
    event a second time leaves the catalog the first handling left. *)
Theorem dispatch_twice fs vol ev c :
  dispatch fs vol ev (dispatch fs vol ev c) = dispatch fs vol ev c.
Proof.
  destruct ev as [p|p|p|p|p|p|p d|p d]; cbn [dispatch];
    unfold on_created, on_deleted, on_modified, on_moved; cbn [src_path];
    destruct (is_eaDir p) eqn:Hea; rewrite ?Hea; try done.
  - (* directory created *)
    destruct (fs (path_join vol p)) as [nd|] eqn:Hfs; rewrite ?Hfs; [|done].
    destruct (nd_islink nd) eqn:Hln; rewrite ?Hln; [done|].
    unfold set_created, upsert_files, upsert_each, upsert_file, row_values.
    cbn [stat after dirs files key_of volume path parent].
    rewrite lookup_insert_eq, insert_insert_eq.
    by destruct (dirs c !! _).
  - (* file created *)
    destruct (fs (path_join vol p)) as [nd|] eqn:Hfs; rewrite ?Hfs; [|done].
    destruct (nd_islink nd) eqn:Hln; rewrite ?Hln; [done|].
    unfold set_created, upsert_files, upsert_each, upsert_file, row_values.
    cbn [stat after dirs files key_of volume path parent].
    rewrite lookup_insert_eq, insert_insert_eq.
    by destruct (files c !! _).
  - (* directory deleted *)
    unfold set_deleted, delete_files. cbn [after foldl delete_file _table
      base key_only key_of volume path files dirs].
    by rewrite delete_delete_eq.
  - (* file deleted *)
    unfold set_deleted, delete_files. cbn [after foldl delete_file _table
      base key_only key_of volume path files dirs].
    by rewrite delete_delete_eq.
  - (* file modified *)
    unfold set_modified, set_rehash_files. cbn [after foldl set_rehash_file
      key_only key_of volume path files dirs].
    f_equal. rewrite alter_alter_eq. apply alter_ext. by intros [] ?.
  - (* directory moved *)
    unfold set_moved, rename_files, rename_each, rename_file.
    cbn [_table base key_only key_of volume path parent].
    destruct (update_key _ _ _ _ (dirs c)) as [t|] eqn:Hu; cbn [after].
    + cbn [dirs files].
      apply update_key_twice in Hu; [|done]. by setoid_rewrite Hu.
    + by setoid_rewrite Hu.
  - (* file moved *)
    unfold set_moved, rename_files, rename_each, rename_file.
    cbn [_table base key_only key_of volume path parent].
    destruct (update_key _ _ _ _ (files c)) as [t|] eqn:Hu; cbn [after].
    + cbn [dirs files].
      apply update_key_twice in Hu; [|done]. by setoid_rewrite Hu.
    + by setoid_rewrite Hu.
Qed.

(** X22.  A notification about a file never changes a row of [dirs], and a
    notification about a directory never changes a row of [files]: when a
    directory is deleted or moved the rows of the files under it stay as
    they are. *)
Theorem dispatch_keeps_other_table fs vol ev c :
  match event_table ev with
  | files_table => dirs (dispatch fs vol ev c) = dirs c
  | dirs_table => files (dispatch fs vol ev c) = files c
  end.
Proof.
  destruct ev as [p|p|p|p|p|p|p d|p d]; cbn [dispatch event_table];
    unfold on_created, on_deleted, on_modified, on_moved; cbn [src_path];
    destruct (is_eaDir p); try done.
  - destruct (fs (path_join vol p)) as [nd|]; [|done].
    by destruct (nd_islink nd).
  - destruct (fs (path_join vol p)) as [nd|]; [|done].
    by destruct (nd_islink nd).
  - unfold set_moved, rename_files, rename_each, rename_file.
    cbn [_table base]. by destruct (update_key _ _ _ _ (dirs c)).
  - unfold set_moved, rename_files, rename_each, rename_file.
    cbn [_table base]. by destruct (update_key _ _ _ _ (files c)).
Qed.
